(** * WordleSolver: the feedback codec, the candidate filter, the entropy
      evaluator, the guess selector and the entropy cache of [wordle.py],
      together with the tuple-based feedback of [top_starters.py].

    Conventions of the embedding.
    - A Python [str] is a [string]; [list(s)] is its list of characters.
    - A Python [int] is a [Z]; [|], [&], [<<] and [>>] are [Z.lor],
      [Z.land], [Z.shiftl] and [Z.shiftr].
    - An [IndexError] or [ValueError] that escapes a function is [None]
      (or a named error where the caller catches it).
    - The module-level dictionary [feedback_cache] is a [gmap] threaded
      through every function that reaches [get_feedback].
    - A Python [float] is idealised as a real number; [math.log2] is
      [ln x / ln 2] and is undefined (raises) outside the positive reals;
      [/] raises on a zero divisor. *)

From Stdlib Require Import ZArith Reals Lra Lia Ascii String Sorted.
From stdpp Require Import gmap strings list fin_maps.

Local Open Scope string_scope.
Local Open Scope list_scope.
Local Open Scope nat_scope.

(** ** Python primitives *)

Module Py.

(** [list(s)] for a [str]. *)
Definition chars (s : string) : list ascii := list_ascii_of_string s.

(** [x in l] on a list. *)
Fixpoint contains {A} `{EqDecision A} (x : A) (l : list A) : bool :=
  match l with
  | [] => false
  | y :: r => if decide (y = x) then true else contains x r
  end.

(** [l.index(x)]: the first position holding [x]; [None] is the
    [ValueError] raised when there is none. *)
Fixpoint index {A} `{EqDecision A} (x : A) (l : list A) : option nat :=
  match l with
  | [] => None
  | y :: r => if decide (y = x) then Some 0 else S <$> index x r
  end.

(** [range(n)]. *)
Definition range (n : nat) : list nat := seq 0 n.

(** [for x in xs: s = body(s, x)], where the body may raise. *)
Fixpoint for_each {S A} (body : S → A → option S) (xs : list A) (s : S)
    : option S :=
  match xs with
  | [] => Some s
  | x :: r => s' ← body s x; for_each body r s'
  end.

(** [max(xs, key=key)] on real keys: the first element whose key no later
    element exceeds; an element replaces the current best only when its
    key is strictly greater. [None] is the [ValueError] on an empty
    sequence. *)
Fixpoint max_from {A} (key : A → R) (best : A) (xs : list A) : A :=
  match xs with
  | [] => best
  | x :: r => max_from key (if Rlt_dec (key best) (key x) then x else best) r
  end.

Definition max_by {A} (key : A → R) (xs : list A) : option A :=
  match xs with
  | [] => None
  | x :: r => Some (max_from key x r)
  end.

(** [a / b] on two [int]s; [None] is [ZeroDivisionError]. *)
Definition true_div (a b : nat) : option R :=
  if decide (b = 0) then None else Some (INR a / INR b)%R.

(** [math.log2(x)]; [None] is the [ValueError] outside the domain. *)
Definition log2 (x : R) : option R :=
  if Rlt_dec 0 x then Some (ln x / ln 2)%R else None.

(** Characters as code points below 256: [str.isspace]. *)
Definition isspace (c : ascii) : bool :=
  let n := nat_of_ascii c in
  (((9 <=? n) && (n <=? 13)) || ((28 <=? n) && (n <=? 32))
   || (n =? 133) || (n =? 160))%nat.

(** [str.lower] on one code point below 256. *)
Definition lower_char (c : ascii) : ascii :=
  let n := nat_of_ascii c in
  if (((65 <=? n) && (n <=? 90))
      || ((192 <=? n) && (n <=? 222) && negb (n =? 215)))%nat
  then ascii_of_nat (n + 32) else c.

Definition lower (s : list ascii) : list ascii := lower_char <$> s.

Fixpoint lstrip (s : list ascii) : list ascii :=
  match s with
  | c :: r => if isspace c then lstrip r else s
  | [] => []
  end.

(** [s.strip()]. *)
Definition strip (s : list ascii) : list ascii :=
  reverse (lstrip (reverse (lstrip s))).

(** [s.replace(a, b)] for single characters. *)
Definition replace_char (a b : ascii) (s : list ascii) : list ascii :=
  (λ c, if decide (c = a) then b else c) <$> s.

(** Splitting at the characters that [sep] accepts: the maximal runs of
    other characters. [tok] is the run being read, latest character
    first. *)
Fixpoint split_from (sep : ascii → bool) (tok : list ascii) (s : list ascii)
    : list string :=
  match s with
  | [] =>
      match tok with
      | [] => []
      | _ => [string_of_list_ascii (reverse tok)]
      end
  | c :: r =>
      if sep c
      then match tok with
           | [] => split_from sep [] r
           | _ => string_of_list_ascii (reverse tok) :: split_from sep [] r
           end
      else split_from sep (c :: tok) r
  end.

(** [s.split()]: splitting at runs of whitespace. *)
Definition split (s : list ascii) : list string := split_from isspace [] s.

End Py.

(** ** FeedbackCodec *)

(** The amount [2 * (4 - i)] by which position [i] is shifted. *)
Definition field_shift (i : nat) : Z := 2 * (4 - Z.of_nat i).

(** The two-bit field of position [i], as the second pass of
    [wordle.get_feedback] reads it:
    [(feedback & (3 << (2 * (4 - i)))) >> (2 * (4 - i))]. *)
Definition field (feedback : Z) (i : nat) : Z :=
  Z.shiftr (Z.land feedback (Z.shiftl 3 (field_shift i))) (field_shift i).

Module Wordle.

(** The loop state of [get_feedback]: the integer [feedback] and the
    list [target_chars]. *)
Definition fb_state : Type := Z * list (option ascii).

(** Body of the first pass (greens). *)
Definition green_step (guess : list ascii) (st : fb_state) (i : nat)
    : option fb_state :=
  g ← guess !! i;
  t ← st.2 !! i;
  if decide (Some g = t)
  then Some (Z.lor st.1 (Z.shiftl 2 (field_shift i)), <[i:=None]> st.2)
  else Some st.

(** Body of the second pass (yellows). *)
Definition yellow_step (guess : list ascii) (st : fb_state) (i : nat)
    : option fb_state :=
  if decide (field st.1 i = 0%Z)
  then
    g ← guess !! i;
    if Py.contains (Some g) st.2
    then
      j ← Py.index (Some g) st.2;
      Some (Z.lor st.1 (Z.shiftl 1 (field_shift i)), <[j:=None]> st.2)
    else Some st
  else Some st.

(** [get_feedback] below its cache lookup: lines 56 to 70. *)
Definition compute_feedback (guess target : string) : option Z :=
  st1 ← Py.for_each (green_step (Py.chars guess)) (Py.range 5)
          (0%Z, Some <$> Py.chars target);
  st2 ← Py.for_each (yellow_step (Py.chars guess)) (Py.range 5) st1;
  Some st2.1.

End Wordle.

Module TopStarters.

(** The loop state of [top_starters.get_feedback]: the list [feedback]
    (0 = gray, 1 = yellow, 2 = green) and [target_chars]. *)
Definition fb_state : Type := list Z * list (option ascii).

Definition green_step (guess : list ascii) (st : fb_state) (i : nat)
    : option fb_state :=
  g ← guess !! i;
  t ← st.2 !! i;
  if decide (Some g = t)
  then Some (<[i:=2%Z]> st.1, <[i:=None]> st.2)
  else Some st.

Definition yellow_step (guess : list ascii) (st : fb_state) (i : nat)
    : option fb_state :=
  d ← st.1 !! i;
  if decide (d = 0%Z)
  then
    g ← guess !! i;
    if Py.contains (Some g) st.2
    then
      j ← Py.index (Some g) st.2;
      Some (<[i:=1%Z]> st.1, <[j:=None]> st.2)
    else Some st
  else Some st.

(** [get_feedback] of [top_starters.py]; the tuple is a list. *)
Definition get_feedback (guess target : string) : option (list Z) :=
  st1 ← Py.for_each (green_step (Py.chars guess)) (Py.range 5)
          (replicate 5 0%Z, Some <$> Py.chars target);
  st2 ← Py.for_each (yellow_step (Py.chars guess)) (Py.range 5) st1;
  Some st2.1.

End TopStarters.

(** Packing a tuple of outcomes, two bits per position, the first position
    in the most significant field. *)
Definition pack (fb : list Z) : Z :=
  foldl (λ acc d, (acc * 4 + d)%Z) 0%Z fb.

(** The all-green pattern tested by [wordle_bot]. *)
Definition ALL_GREEN : Z := 682.

(** ** The interpreter state and the monad of functions that touch it *)

(** What [pickle.load] would find in a file: the pickle of a dictionary, or
    bytes that are no pickle at all. A dictionary is kept in insertion
    order. *)
Inductive pickled : Type :=
  | PickleOf (d : list (string * R))
  | NotAPickle.

(** The module-level [feedback_cache] and the two files
    [wordlist_hash.txt] and [initial_entropy.pkl] ([None]: no such file). *)
Record world : Type := World {
  feedback_cache : gmap (string * string) Z;
  hash_file : option string;
  entropy_file : option pickled
}.

Definition set_cache (c : gmap (string * string) Z) (w : world) : world :=
  World c (hash_file w) (entropy_file w).

(** A computation reads and writes the world and may raise; an exception
    that nothing catches is [None]. *)
Definition M (A : Type) : Type := world → option (A * world).

Definition ret {A} (a : A) : M A := λ w, Some (a, w).

Definition bind {A B} (m : M A) (k : A → M B) : M B :=
  λ w, match m w with
       | Some (a, w') => k a w'
       | None => None
       end.

Definition lift {A} (o : option A) : M A :=
  λ w, match o with Some a => Some (a, w) | None => None end.

Notation "x <~ m ;; k" := (bind m (λ x, k))
  (at level 100, m at next level, right associativity).

(** [for x in xs: s = body(s, x)] for a body that touches the world. *)
Fixpoint for_each_m {S A} (body : S → A → M S) (xs : list A) (s : S) : M S :=
  match xs with
  | [] => ret s
  | x :: r => s' <~ body s x ;; for_each_m body r s'
  end.

(** [pool.map(f, args)]: the tasks run in worker processes, each on its own
    copy of the interpreter state; the results come back in the order of
    [args] and nothing a worker wrote to its copy of [feedback_cache]
    reaches the caller. The model runs the tasks in order on one copy. *)
Definition pool_map {A B} (f : A → M B) (args : list A) : M (list B) :=
  λ w, match for_each_m (λ acc a, b <~ f a ;; ret (acc ++ [b])) args [] w with
       | Some (rs, _) => Some (rs, w)
       | None => None
       end.

(** ** wordle.py *)

(** [get_feedback], lines 36 to 73, with its memo table. *)
Definition get_feedback (guess target : string) : M Z :=
  λ w, match feedback_cache w !! (guess, target) with
       | Some v => Some (v, w)
       | None =>
           v ← Wordle.compute_feedback guess target;
           Some (v, set_cache (<[(guess, target) := v]> (feedback_cache w)) w)
       end.

(** [pattern_counts[pattern] += 1] on a [Counter] kept in insertion
    order. *)
Fixpoint counter_incr (pattern : Z) (counts : list (Z * nat))
    : list (Z * nat) :=
  match counts with
  | [] => [(pattern, 1)]
  | (p, n) :: r =>
      if decide (p = pattern) then (p, S n) :: r
      else (p, n) :: counter_incr pattern r
  end.

(** One turn of the loop of lines 110 to 112. *)
Definition entropy_step (total : nat) (entropy : R) (count : nat)
    : option R :=
  probability ← Py.true_div count total;
  l ← Py.log2 probability;
  Some (entropy - probability * l)%R.

(** [calculate_entropy], lines 92 to 113. *)
Definition calculate_entropy (guess : string) (possible_words : list string)
    : M R :=
  pattern_counts <~ for_each_m
      (λ counts word,
         pattern <~ get_feedback guess word ;; ret (counter_incr pattern counts))
      possible_words [] ;;
  lift (Py.for_each (entropy_step (length possible_words))
          (pattern_counts.*2) 0%R).

(** [calculate_entropy_wrapper], lines 115 to 127. *)
Definition calculate_entropy_wrapper (args : string * list string)
    : M (string * R) :=
  entropy <~ calculate_entropy args.1 args.2 ;; ret (args.1, entropy).

(** [select_best_guess_parallel], lines 129 to 153. The comprehension of
    line 145 ranges over [possible_words]; [word_list] is not read. *)
Definition select_best_guess_parallel
    (word_list possible_words : list string) : M string :=
  let args := (λ guess, (guess, possible_words)) <$> possible_words in
  results <~ pool_map calculate_entropy_wrapper args ;;
  best <~ lift (Py.max_by snd results) ;;
  ret best.1.

(** [filter_possible_words], lines 156 to 172. *)
Definition filter_possible_words
    (guess : string) (feedback : Z) (possible_words : list string)
    : M (list string) :=
  for_each_m
    (λ filtered_words word,
       fb <~ get_feedback guess word ;;
       ret (if decide (fb = feedback) then filtered_words ++ [word]
            else filtered_words))
    possible_words [].


(** Exceptions that a caller of this program catches or that the claims
    name. *)
Inductive exn : Type :=
  | ValueError (msg : string)
  | IndexError.

Inductive result (A : Type) : Type :=
  | Ok (a : A)
  | Raise (e : exn).
Arguments Ok {A} a.
Arguments Raise {A} e.

(** The dictionary literal [feedback_map] of [parse_feedback]. *)
Definition feedback_map : list (string * string) :=
  [("g", "green"); ("y", "yellow"); ("b", "gray");
   ("gray", "gray"); ("green", "green"); ("yellow", "yellow")].

(** [d[k]] and [k in d] on a dictionary kept as a list of items. *)
Fixpoint dict_get {V} (k : string) (d : list (string * V)) : option V :=
  match d with
  | [] => None
  | (k', v) :: r => if decide (k' = k) then Some v else dict_get k r
  end.

(** [d[k] = v]: an existing key keeps its place. *)
Fixpoint dict_set {V} (k : string) (v : V) (d : list (string * V))
    : list (string * V) :=
  match d with
  | [] => [(k, v)]
  | (k', v') :: r =>
      if decide (k' = k) then (k', v) :: r else (k', v') :: dict_set k v r
  end.

(** The loop of lines 198 to 202: the colour names of the tokens, or the
    first token that is no key of [feedback_map]. *)
Fixpoint translate_tokens (tokens : list string) (feedback : list string)
    : string + list string :=
  match tokens with
  | [] => inr feedback
  | token :: r =>
      match dict_get token feedback_map with
      | Some colour => translate_tokens r (feedback ++ [colour])
      | None => inl token
      end
  end.

(** Body of the loop of lines 208 to 213. *)
Definition encode_step (feedback : list string) (feedback_int : Z) (i : nat)
    : option Z :=
  colour ← feedback !! i;
  if decide (colour = "green")
  then Some (Z.lor feedback_int (Z.shiftl 2 (field_shift i)))
  else if decide (colour = "yellow")
  then Some (Z.lor feedback_int (Z.shiftl 1 (field_shift i)))
  else Some feedback_int.

(** The tokens that [parse_feedback] reads from its argument, line 197. *)
Definition feedback_tokens (feedback_str : string) : list string :=
  Py.split (Py.replace_char "," " " (Py.lower (Py.strip (Py.chars feedback_str)))).

(** [parse_feedback], lines 175 to 214. *)
Definition parse_feedback (feedback_str : string) : result Z :=
  match translate_tokens (feedback_tokens feedback_str) [] with
  | inl token =>
      Raise (ValueError
        ("Invalid feedback token: '" +:+ token +:+
         "'. Use 'g' for green, 'y' for yellow, 'b' or 'gray' for gray."))
  | inr feedback =>
      if decide (length feedback ≠ 5)
      then Raise (ValueError "Feedback must consist of exactly 5 tokens.")
      else match Py.for_each (encode_step feedback) (Py.range 5) 0%Z with
           | Some feedback_int => Ok feedback_int
           | None => Raise IndexError
           end
  end.

(** *** The entropy cache, lines 216 to 326 *)

Section EntropyCache.

(** [hashlib.sha256(data).hexdigest()], from the text it is fed. *)
Variable sha256_hexdigest : string → string.

(** [compute_wordlist_hash]: every word is fed to one hasher in turn. *)
Definition compute_wordlist_hash (word_list : list string) : string :=
  sha256_hexdigest (foldl String.append "" word_list).

Definition save_wordlist_hash (wordlist_hash : string) : M () :=
  λ w, Some ((), World (feedback_cache w) (Some wordlist_hash) (entropy_file w)).

Definition load_wordlist_hash : M (option string) :=
  λ w, Some ((λ text, string_of_list_ascii (Py.strip (Py.chars text)))
               <$> hash_file w, w).

Definition is_entropy_cache_valid (word_list : list string) : M bool :=
  cached_hash <~ load_wordlist_hash ;;
  let current_hash := compute_wordlist_hash word_list in
  λ w, Some (bool_decide (cached_hash = Some current_hash)
             && bool_decide (is_Some (entropy_file w)), w).

Definition compute_and_save_initial_entropy (word_list : list string)
    : M (list (string * R)) :=
  let args := (λ guess, (guess, word_list)) <$> word_list in
  results <~ pool_map calculate_entropy_wrapper args ;;
  let entropy_dict :=
    foldl (λ d (r : string * R), dict_set r.1 r.2 d) [] results in
  _ <~ (λ w, Some ((), World (feedback_cache w) (hash_file w)
                        (Some (PickleOf entropy_dict)))) ;;
  _ <~ save_wordlist_hash (compute_wordlist_hash word_list) ;;
  ret entropy_dict.

(** [load_initial_entropy]: opening a missing file and unpickling bytes
    that are no pickle both raise. *)
Definition load_initial_entropy : M (list (string * R)) :=
  λ w, match entropy_file w with
       | Some (PickleOf d) => Some (d, w)
       | Some NotAPickle => None
       | None => None
       end.

Definition get_initial_entropy (word_list : list string)
    : M (list (string * R)) :=
  valid <~ is_entropy_cache_valid word_list ;;
  if valid then load_initial_entropy
  else compute_and_save_initial_entropy word_list.

(** *** The session loop of [wordle_bot], lines 348 to 379 *)

Inductive outcome : Type :=
  | Solved
  | NoWordsRemaining
  | OutOfAttempts.

(** The [while True] loop of lines 360 to 367 over the lines that
    [input] will return: a line that [parse_feedback] rejects with a
    [ValueError] is dropped and the next one is read. [None] is the
    [EOFError] of an exhausted input. *)
Fixpoint read_feedback (inputs : list string) : option (Z * list string) :=
  match inputs with
  | [] => None
  | line :: rest =>
      let feedback_input :=
        string_of_list_ascii (Py.lower (Py.strip (Py.chars line))) in
      match parse_feedback feedback_input with
      | Ok feedback => Some (feedback, rest)
      | Raise (ValueError _) => read_feedback rest
      | Raise IndexError => None
      end
  end.

(** The [for attempt in range(attempts)] loop; the result carries the
    guesses printed so far. *)
Fixpoint rounds (word_list : list string) (initial_entropy : list (string * R))
    (attempts : list nat) (possible_words : list string)
    (inputs : list string) (guesses : list string)
    : M (outcome * list string) :=
  match attempts with
  | [] => ret (OutOfAttempts, guesses)
  | attempt :: later =>
      match possible_words with
      | [] => ret (NoWordsRemaining, guesses)
      | _ =>
          guess <~ (if decide (attempt = 0)
                    then best <~ lift (Py.max_by snd initial_entropy) ;;
                         ret best.1
                    else select_best_guess_parallel word_list possible_words) ;;
          fr <~ lift (read_feedback inputs) ;;
          if decide (fr.1 = 682%Z)
          then ret (Solved, guesses ++ [guess])
          else
            possible_words' <~ filter_possible_words guess fr.1 possible_words ;;
            rounds word_list initial_entropy later possible_words' fr.2
              (guesses ++ [guess])
      end
  end.

(** [wordle_bot] once [load_word_list] has returned [word_list]. *)
Definition wordle_bot (word_list : list string) (inputs : list string)
    : M (outcome * list string) :=
  initial_entropy <~ get_initial_entropy word_list ;;
  rounds word_list initial_entropy (Py.range 6) word_list inputs [].

End EntropyCache.


(** *** The functions of [wordle.py] and [top_starters.py] beside the
    ones above *)

(** [d.get(k)] on a dictionary kept as a list of items, for any key
    type. *)
Fixpoint lookup_key {K V} `{EqDecision K} (k : K) (d : list (K * V))
    : option V :=
  match d with
  | [] => None
  | (k', v) :: r => if decide (k' = k) then Some v else lookup_key k r
  end.

(** [pattern_groups[pattern].append(word)] on a [defaultdict(list)] kept in
    insertion order. *)
Fixpoint group_append (pattern : Z) (word : string)
    (groups : list (Z * list string)) : list (Z * list string) :=
  match groups with
  | [] => [(pattern, [word])]
  | (p, ws) :: r =>
      if decide (p = pattern) then (p, ws ++ [word]) :: r
      else (p, ws) :: group_append pattern word r
  end.

(** [group_feedback_patterns], lines 75 to 90. *)
Definition group_feedback_patterns (guess : string)
    (possible_words : list string) : M (list (Z * list string)) :=
  for_each_m
    (λ pattern_groups word,
       pattern <~ get_feedback guess word ;;
       ret (group_append pattern word pattern_groups))
    possible_words [].


Section WordList.

(** [unidecode.unidecode], a library function. *)
Variable unidecode : string → string.

(** [line.strip()] on a [str]. *)
Definition strip_line (line : string) : string :=
  string_of_list_ascii (Py.strip (Py.chars line)).



End WordList.

Module Starters.

(** [Counter(...)] fed one key: the count of the key goes up, a new key is
    appended. *)
Fixpoint count_key {K} `{EqDecision K} (k : K) (counts : list (K * nat))
    : list (K * nat) :=
  match counts with
  | [] => [(k, 1)]
  | (k', n) :: r =>
      if decide (k' = k) then (k', S n) :: r else (k', n) :: count_key k r
  end.

(** [calculate_entropy] of [top_starters.py], lines 31 to 39: the counter
    is keyed by the tuples of [get_feedback]. *)
Definition calculate_entropy (guess : string) (possible_words : list string)
    : option R :=
  feedback_counts ← Py.for_each
      (λ counts word,
         fb ← TopStarters.get_feedback guess word; Some (count_key fb counts))
      possible_words [];
  Py.for_each (entropy_step (length possible_words)) (feedback_counts.*2) 0%R.




End Starters.

(** ** Specification vocabulary *)

(** The outcomes of one position. *)
Definition GRAY : Z := 0.
Definition YELLOW : Z := 1.
Definition GREEN : Z := 2.

(** A tuple of five outcomes. *)
Definition outcomes (fb : list Z) : Prop :=
  length fb = 5 ∧ Forall (λ d, d = GRAY ∨ d = YELLOW ∨ d = GREEN) fb.

(** How many of the five positions of [guess] carry the letter [c] and are
    green or yellow in the packed pattern [v]. *)
Definition letter_marks (guess : string) (v : Z) (c : ascii) : nat :=
  length (filter (λ i, (field v i = YELLOW ∨ field v i = GREEN)
                       ∧ Py.chars guess !! i = Some c) (Py.range 5)).

(** How often the letter [c] occurs in [w]. *)
Definition occurrences (c : ascii) (w : string) : nat :=
  length (filter (λ x, x = c) (Py.chars w)).

(** Every entry of the memo table is what [get_feedback] computes for its
    key. *)
Definition consistent (w : world) : Prop :=
  map_Forall (λ k v, Wordle.compute_feedback k.1 k.2 = Some v)
    (feedback_cache w).

(** The worlds a run can be in: the memo table starts empty and only
    [get_feedback] writes to it. *)
Inductive reachable : world → Prop :=
  | reachable_start hf ef : reachable (World ∅ hf ef)
  | reachable_call guess target w v w' :
      reachable w → get_feedback guess target w = Some (v, w') →
      reachable w'
  | reachable_files w hf ef :
      reachable w → reachable (World (feedback_cache w) hf ef).

(** A word of the game. *)
Definition is_word (w : string) : Prop := String.length w = 5.

(** *** Loop invariants of the two feedback functions *)

(** The states of the two first passes correspond; no position is yellow
    yet. *)
Definition sim_green (s1 : Wordle.fb_state) (s2 : TopStarters.fb_state) : Prop :=
  outcomes s2.1 ∧ Forall (λ d, d = GRAY ∨ d = GREEN) s2.1
  ∧ s1.1 = pack s2.1 ∧ s1.2 = s2.2.

(** The states of the two second passes correspond. *)
Definition sim_yellow (s1 : Wordle.fb_state) (s2 : TopStarters.fb_state) : Prop :=
  outcomes s2.1 ∧ s1.1 = pack s2.1 ∧ s1.2 = s2.2.

(** Positions of [guess] that carry [c] and are no longer gray in [fb]. *)
Definition marks (guess : list ascii) (fb : list Z) (c : ascii) : nat :=
  length (filter (λ i, fb !! i ≠ Some GRAY ∧ guess !! i = Some c) (Py.range 5)).

(** Occurrences of [c] that [target_chars] still offers. *)
Definition unclaimed (tc : list (option ascii)) (c : ascii) : nat :=
  length (filter (λ x, x = Some c) tc).

(** Every mark has consumed one occurrence of its letter in the target. *)
Definition balanced (guess target : list ascii) (st : TopStarters.fb_state)
    : Prop :=
  outcomes st.1
  ∧ ∀ c, marks guess st.1 c + unclaimed st.2 c
         = length (filter (λ x, x = c) target).

(** Before turn [i] of the first pass. *)
Definition green_inv (guess target : list ascii) (i : nat)
    (st : TopStarters.fb_state) : Prop :=
  balanced guess target st
  ∧ (∀ j, j < i → (st.1 !! j = Some GREEN ↔ guess !! j = target !! j))
  ∧ (∀ j, i ≤ j → j < 5 → st.1 !! j = Some GRAY)
  ∧ (∀ j, i ≤ j → st.2 !! j = (Some <$> target) !! j).

(** Throughout the second pass. *)
Definition yellow_inv (guess target : list ascii)
    (st : TopStarters.fb_state) : Prop :=
  balanced guess target st
  ∧ (∀ j, j < 5 → (st.1 !! j = Some GREEN ↔ guess !! j = target !! j)).

(** The pattern of a pair of words, as a total function ([0] where
    [get_feedback] raises). *)
Definition pattern (guess target : string) : Z :=
  default 0%Z (Wordle.compute_feedback guess target).

(** Two worlds that differ in [feedback_cache] at most. *)
Definition same_files (w w' : world) : Prop :=
  hash_file w' = hash_file w ∧ entropy_file w' = entropy_file w.

(** *** Vocabulary of the feedback tokens *)

(** The outcome that a token stands for. *)
Definition token_outcome (token : string) : option Z :=
  if decide (token = "g" ∨ token = "green") then Some GREEN
  else if decide (token = "y" ∨ token = "yellow") then Some YELLOW
  else if decide (token = "b" ∨ token = "gray") then Some GRAY
  else None.

(** The input lowercased and split at whitespace and commas. *)
Definition lowered_tokens (feedback_str : string) : list string :=
  Py.split_from (λ c, Py.isspace c || bool_decide (c = ","%char)) []
    (Py.lower (Py.chars feedback_str)).

(** The number that a colour name of [feedback_map] is encoded as. *)
Definition colour_code (colour : string) : Z :=
  if decide (colour = "green") then GREEN
  else if decide (colour = "yellow") then YELLOW
  else GRAY.

(** *** Vocabulary of the entropy *)

(** The base-two logarithm of a positive real. *)
Definition log2_real (x : R) : R := (ln x / ln 2)%R.

(** The contribution [-p * log2 p] of a group of [count] words among
    [total]. *)
Definition entropy_term (total count : nat) : R :=
  (- (INR count / INR total * log2_real (INR count / INR total)))%R.

Definition sum_R (l : list R) : R := foldr Rplus 0%R l.

(** The [Counter] that the first loop of [calculate_entropy] builds. *)
Definition pattern_counts_of (guess : string) (possible_words : list string)
    : list (Z * nat) :=
  foldl (λ counts word, counter_incr (pattern guess word) counts) []
    possible_words.

(** The value of [calculate_entropy] on words. *)
Definition entropy_of (guess : string) (possible_words : list string) : R :=
  sum_R (entropy_term (length possible_words)
           <$> (pattern_counts_of guess possible_words).*2).

(** *** Vocabulary of the guess selector and of the entropy cache *)

(** The guess of [pool] with the greatest entropy against [candidates], the
    earliest one among equals. *)
Definition best_of_pool (pool candidates : list string) : option string :=
  fst <$> Py.max_by snd ((λ g, (g, entropy_of g candidates)) <$> pool).

(** The table that the cold path computes for a pool. *)
Definition entropy_table (word_list : list string) : list (string * R) :=
  foldl (λ d (r : string * R), dict_set r.1 r.2 d) []
    ((λ g, (g, entropy_of g word_list)) <$> word_list).

(** The fingerprint read from [wordlist_hash.txt], if the file exists. *)
Definition stored_hash (w : world) : option string :=
  (λ text, string_of_list_ascii (Py.strip (Py.chars text))) <$> hash_file w.

(** *** Vocabulary of the further properties *)

(** Before turn [i] of the second pass: where an earlier position was left
    gray, [target_chars] offers its letter no more. *)
Definition gray_inv (guess : list ascii) (i : nat)
    (st : TopStarters.fb_state) : Prop :=
  ∀ j g, j < i → st.1 !! j = Some GRAY → guess !! j = Some g →
         unclaimed st.2 g = 0.

(** How many of the first five positions of [guess] carry the letter [c]. *)
Definition guess_letters (guess : string) (c : ascii) : nat :=
  length (filter (λ i, Py.chars guess !! i = Some c) (Py.range 5)).

(** The dictionary that the loop of [group_feedback_patterns] builds. *)
Definition groups_of (guess : string) (possible_words : list string)
    : list (Z * list string) :=
  foldl (λ groups word, group_append (pattern guess word) word groups) []
    possible_words.

(** * Proofs *)

(** ** Lists, loops and strings *)

Lemma length_chars s : length (Py.chars s) = String.length s.
Proof. induction s as [|c s IH]; simpl; [done | by rewrite IH]. Qed.

Lemma chars_inj s1 s2 : Py.chars s1 = Py.chars s2 → s1 = s2.
Proof.
  intros H. rewrite <- (string_of_list_ascii_of_string s1).
  rewrite <- (string_of_list_ascii_of_string s2). unfold Py.chars in H.
  by rewrite H.
Qed.

Lemma contains_true_index {A} `{EqDecision A} (x : A) (l : list A) :
  Py.contains x l = true →
  ∃ j, Py.index x l = Some j ∧ l !! j = Some x.
Proof.
  induction l as [|y l IH]; simpl; [done |].
  destruct (decide (y = x)) as [->|Hne].
  - intros _. by exists 0.
  - intros H. destruct (IH H) as (j & Hj & Hl).
    exists (S j). by rewrite Hj.
Qed.

(** An invariant indexed by the loop counter carries through a loop over
    [range]. *)
Lemma for_each_seq_inv {S} (I : nat → S → Prop) (body : S → nat → option S)
    (a n : nat) (s : S) :
  I a s →
  (∀ i s, a ≤ i < a + n → I i s → ∃ s', body s i = Some s' ∧ I (Datatypes.S i) s') →
  ∃ s', Py.for_each body (seq a n) s = Some s' ∧ I (a + n) s'.
Proof.
  revert a s. induction n as [|n IH]; intros a s Ha Hstep; simpl.
  - exists s. by rewrite Nat.add_0_r.
  - destruct (Hstep a s) as (s1 & -> & H1); [lia | done |]. simpl.
    destruct (IH (Datatypes.S a) s1) as (s' & Hs' & HI); [done | |].
    + intros i t Hi. apply Hstep. lia.
    + exists s'. split; [done |]. by replace (a + Datatypes.S n) with (Datatypes.S a + n) by lia.
Qed.

(** Two loops over the same sequence whose bodies preserve a relation
    between their states end in related states, or both raise. *)
Lemma for_each_sim {S1 S2 A} (R : S1 → S2 → Prop) (P : A → Prop)
    (b1 : S1 → A → option S1) (b2 : S2 → A → option S2) xs s1 s2 :
  Forall P xs → R s1 s2 →
  (∀ x s1 s2, P x → R s1 s2 → option_Forall2 R (b1 s1 x) (b2 s2 x)) →
  option_Forall2 R (Py.for_each b1 xs s1) (Py.for_each b2 xs s2).
Proof.
  intros HP. revert s1 s2.
  induction HP as [|x xs Hx _ IH]; intros s1 s2 HR Hstep; simpl.
  - by constructor.
  - destruct (Hstep x s1 s2 Hx HR) as [t1 t2 Ht|]; simpl; [|constructor].
    by apply IH.
Qed.

(** Counting the indices that satisfy a predicate, when the predicate
    changes at one index only. *)
Lemma filter_length_ext {A} (P Q : A → Prop)
    `{∀ x, Decision (P x)} `{∀ x, Decision (Q x)} (l : list A) :
  (∀ x, x ∈ l → (P x ↔ Q x)) → length (filter Q l) = length (filter P l).
Proof.
  induction l as [|x l IH]; intros Hext; [done |].
  rewrite !filter_cons.
  assert (length (filter Q l) = length (filter P l)) as E.
  { apply IH. intros y Hy. apply Hext. by right. }
  destruct (decide (Q x)) as [q|q], (decide (P x)) as [p|p]; simpl; try lia.
  - exfalso. apply p, (Hext x); [by left | done].
  - exfalso. apply q, (Hext x); [by left | done].
Qed.

Lemma filter_length_flip {A} `{EqDecision A} (P Q : A → Prop)
    `{∀ x, Decision (P x)} `{∀ x, Decision (Q x)} (l : list A) (x0 : A) :
  NoDup l → x0 ∈ l → ¬ P x0 → Q x0 → (∀ x, x ≠ x0 → (P x ↔ Q x)) →
  length (filter Q l) = Datatypes.S (length (filter P l)).
Proof.
  induction l as [|x l IH]; intros Hnd Hin Hp Hq Hext; [by inversion Hin |].
  apply NoDup_cons in Hnd as [Hx Hnd]. rewrite !filter_cons.
  destruct (decide (x = x0)) as [->|Hne].
  - rewrite decide_True by done. rewrite (decide_False (P:=P x0)) by done.
    simpl. f_equal. apply filter_length_ext.
    intros y Hy. apply Hext. intros ->. done.
  - apply elem_of_cons in Hin as [->|Hin]; [done |].
    specialize (IH Hnd Hin Hp Hq Hext).
    destruct (decide (Q x)) as [q|q], (decide (P x)) as [p|p]; simpl; try lia.
    + exfalso. by apply p, (Hext x).
    + exfalso. by apply q, (Hext x).
Qed.

Lemma filter_length_none {A} (P : A → Prop) `{∀ x, Decision (P x)}
    (l : list A) :
  (∀ x, x ∈ l → ¬ P x) → length (filter P l) = 0.
Proof.
  induction l as [|x l IH]; intros Hno; [done |].
  rewrite filter_cons, decide_False by (apply Hno; by left).
  apply IH. intros y Hy. apply Hno. by right.
Qed.

(** Counting the elements that satisfy a predicate, across an update in
    place. *)
Lemma filter_length_insert_drop {A} (P : A → Prop) `{∀ x, Decision (P x)}
    (l : list A) (j : nat) (x y : A) :
  l !! j = Some x → P x → ¬ P y →
  Datatypes.S (length (filter P (<[j:=y]> l))) = length (filter P l).
Proof.
  revert j. induction l as [|z l IH]; intros j Hj Hx Hy; [done |].
  destruct j as [|j]; simpl in *.
  - injection Hj as ->. rewrite !filter_cons.
    destruct (decide (P y)), (decide (P x)); simpl; done.
  - rewrite !filter_cons. specialize (IH j Hj Hx Hy).
    destruct (decide (P z)); simpl; lia.
Qed.

Lemma filter_length_insert_keep {A} (P : A → Prop) `{∀ x, Decision (P x)}
    (l : list A) (j : nat) (x y : A) :
  l !! j = Some x → ¬ P x → ¬ P y →
  length (filter P (<[j:=y]> l)) = length (filter P l).
Proof.
  revert j. induction l as [|z l IH]; intros j Hj Hx Hy; [done |].
  destruct j as [|j]; simpl in *.
  - injection Hj as ->. rewrite !filter_cons.
    destruct (decide (P y)), (decide (P x)); simpl; done.
  - rewrite !filter_cons. specialize (IH j Hj Hx Hy).
    destruct (decide (P z)); simpl; lia.
Qed.

(** ** Packed patterns *)

(** There are 243 tuples of five outcomes; the facts about their packing
    are checked on each of them. *)
Ltac each_outcomes H :=
  let Hlen := fresh "Hlen" in
  let Hall := fresh "Hall" in
  destruct H as [Hlen Hall];
  repeat (match goal with
          | l : list Z |- _ =>
              destruct l; simpl in Hlen; try discriminate Hlen; try lia
          end);
  repeat (match goal with
          | H : Forall _ (_ :: _) |- _ =>
              apply Forall_cons in H;
              let Hd := fresh "Hd" in
              destruct H as [Hd H];
              unfold GRAY, YELLOW, GREEN in Hd;
              destruct Hd as [->|[->| ->]]
          end).

Lemma field_pack (fb : list Z) (i : nat) (d : Z) :
  outcomes fb → fb !! i = Some d → field (pack fb) i = d.
Proof.
  intros H Hi. each_outcomes H;
    (do 5 (destruct i as [|i]; [injection Hi as <-; by vm_compute |]));
    simpl in Hi; discriminate.
Qed.

Lemma lor_pack (fb : list Z) (i : nat) (d : Z) :
  outcomes fb → fb !! i = Some GRAY → d = YELLOW ∨ d = GREEN →
  Z.lor (pack fb) (Z.shiftl d (field_shift i)) = pack (<[i:=d]> fb).
Proof.
  intros H Hi [-> | ->]; each_outcomes H;
    (do 5 (destruct i as [|i];
           [first [by vm_compute | by (vm_compute in Hi; discriminate Hi)] |]));
    simpl in Hi; discriminate.
Qed.

Lemma pack_all_green (fb : list Z) :
  outcomes fb → pack fb = ALL_GREEN → fb = replicate 5 GREEN.
Proof.
  intros H Hp. each_outcomes H; first [reflexivity | by vm_compute in Hp].
Qed.

Lemma outcomes_insert (fb : list Z) (i : nat) (d : Z) :
  outcomes fb → d = GRAY ∨ d = YELLOW ∨ d = GREEN → outcomes (<[i:=d]> fb).
Proof.
  intros [Hlen Hall] Hd. split; [by rewrite length_insert |].
  apply Forall_insert; done.
Qed.

Lemma outcomes_lookup (fb : list Z) (i : nat) :
  outcomes fb → i < 5 → ∃ d, fb !! i = Some d ∧ (d = GRAY ∨ d = YELLOW ∨ d = GREEN).
Proof.
  intros [Hlen Hall] Hi. destruct (lookup_lt_is_Some_2 fb i) as [d Hd]; [lia |].
  exists d. split; [done |]. by eapply Forall_lookup_1 in Hall.
Qed.

Lemma lor_pack_green (fb : list Z) (i : nat) (d : Z) :
  outcomes fb → fb !! i = Some d → d = GRAY ∨ d = GREEN →
  Z.lor (pack fb) (Z.shiftl 2 (field_shift i)) = pack (<[i:=GREEN]> fb).
Proof.
  intros H Hi [-> | ->]; each_outcomes H;
    (do 5 (destruct i as [|i];
           [first [by vm_compute | by (vm_compute in Hi; discriminate Hi)] |]));
    simpl in Hi; discriminate.
Qed.

(** ** The two feedback functions compute the same pattern *)

Lemma green_step_sim guess i s1 s2 :
  i < 5 → sim_green s1 s2 →
  option_Forall2 sim_green
    (Wordle.green_step guess s1 i) (TopStarters.green_step guess s2 i).
Proof.
  intros Hi (Hout & Hgg & Hpack & Htc).
  destruct s1 as [f tc1], s2 as [fb tc2]; simpl in *; subst.
  unfold Wordle.green_step, TopStarters.green_step; simpl.
  destruct (guess !! i) as [g|]; simpl; [|constructor].
  destruct (tc2 !! i) as [t|]; simpl; [|constructor].
  destruct (decide (Some g = t)); constructor; [|done].
  destruct (outcomes_lookup fb i Hout Hi) as (d & Hd & _).
  assert (d = GRAY ∨ d = GREEN) as Hdd by by eapply Forall_lookup_1 in Hgg.
  repeat split; simpl.
  - rewrite length_insert. apply Hout.
  - apply Forall_insert; [apply Hout | unfold GREEN; auto].
  - apply Forall_insert; [done | by right].
  - by apply (lor_pack_green fb i d).
Qed.

Lemma yellow_step_sim guess i s1 s2 :
  i < 5 → sim_yellow s1 s2 →
  option_Forall2 sim_yellow
    (Wordle.yellow_step guess s1 i) (TopStarters.yellow_step guess s2 i).
Proof.
  intros Hi (Hout & Hpack & Htc).
  destruct s1 as [f tc1], s2 as [fb tc2]; simpl in *; subst.
  unfold Wordle.yellow_step, TopStarters.yellow_step; simpl.
  destruct (outcomes_lookup fb i Hout Hi) as (d & Hd & Hdd).
  rewrite Hd; simpl. rewrite (field_pack fb i d Hout Hd).
  destruct (decide (d = 0%Z)) as [->|Hne]; [|by constructor].
  destruct (guess !! i) as [g|]; simpl; [|constructor].
  destruct (Py.contains (Some g) tc2) eqn:Hc; [|by constructor].
  destruct (contains_true_index _ _ Hc) as (j & -> & _); simpl.
  constructor. repeat split; simpl.
  - rewrite length_insert. apply Hout.
  - apply Forall_insert; [apply Hout | unfold YELLOW; auto].
  - apply (lor_pack fb i 1%Z); [done | done | by left].
Qed.

Lemma range_below n : Forall (λ i, i < n) (Py.range n).
Proof.
  apply Forall_forall. intros i Hi. apply elem_of_seq in Hi. lia.
Qed.

(** The integer of [wordle.py] is the packed tuple of [top_starters.py],
    and the two functions raise on the same arguments. *)
Lemma compute_feedback_pack guess target :
  Wordle.compute_feedback guess target
  = pack <$> TopStarters.get_feedback guess target.
Proof.
  unfold Wordle.compute_feedback, TopStarters.get_feedback.
  set (L1 := Py.for_each (Wordle.green_step _) _ _).
  set (L2 := Py.for_each (TopStarters.green_step _) _ _).
  assert (option_Forall2 sim_green L1 L2) as H1.
  { apply (for_each_sim sim_green (λ i, i < 5)).
    - apply range_below.
    - repeat split; simpl; repeat constructor; by left.
    - intros. by apply green_step_sim. }
  clearbody L1 L2. destruct H1 as [s1 s2 (Hout & _ & Hpack & Htc)|]; [|done].
  change (Some s1 ≫= ?k) with (k s1). change (Some s2 ≫= ?k) with (k s2).
  cbv beta.
  set (Y1 := Py.for_each (Wordle.yellow_step _) _ _).
  set (Y2 := Py.for_each (TopStarters.yellow_step _) _ _).
  assert (option_Forall2 sim_yellow Y1 Y2) as H2.
  { apply (for_each_sim sim_yellow (λ i, i < 5)).
    - apply range_below.
    - done.
    - intros. by apply yellow_step_sim. }
  clearbody Y1 Y2. destruct H2 as [t1 t2 (_ & Hp & _)|]; [|done].
  simpl. by f_equal.
Qed.

(** ** The invariants of the two passes *)

Section Passes.

Variables guess target : list ascii.
Hypothesis guess_len : 5 ≤ length guess.
Hypothesis target_len : 5 ≤ length target.

(** Marking position [i] with the letter it carries while taking one
    occurrence of that letter out of [target_chars] keeps the balance. *)
Lemma balanced_mark fb tc i j g d :
  i < 5 → fb !! i = Some GRAY → guess !! i = Some g →
  tc !! j = Some (Some g) → d = YELLOW ∨ d = GREEN →
  balanced guess target (fb, tc) →
  balanced guess target (<[i:=d]> fb, <[j:=None]> tc).
Proof.
  intros Hi Hfb Hg Htc Hd [Hout Hbal]; simpl in *.
  assert (d ≠ GRAY) as Hd0 by (unfold GRAY, YELLOW, GREEN in *; lia).
  split; simpl.
  { apply outcomes_insert; tauto. }
  intros c. rewrite <- (Hbal c). unfold marks, unclaimed.
  assert (i < length fb) as Hilen by (by apply lookup_lt_Some in Hfb).
  destruct (decide (g = c)) as [->|Hne].
  - rewrite (filter_length_flip
               (λ k, fb !! k ≠ Some GRAY ∧ guess !! k = Some c)
               (λ k, <[i:=d]> fb !! k ≠ Some GRAY ∧ guess !! k = Some c)
               (Py.range 5) i).
    + pose proof (filter_length_insert_drop (λ x, x = Some c) tc j (Some c) None
                    Htc eq_refl) as E.
      rewrite <- E by done. simpl. lia.
    + apply NoDup_seq.
    + apply elem_of_seq. lia.
    + intros [H _]. done.
    + split; [|done]. rewrite list_lookup_insert_eq by done. congruence.
    + intros k Hk. by rewrite list_lookup_insert_ne.
  - rewrite (filter_length_ext
               (λ k, fb !! k ≠ Some GRAY ∧ guess !! k = Some c)
               (λ k, <[i:=d]> fb !! k ≠ Some GRAY ∧ guess !! k = Some c)).
    + rewrite (filter_length_insert_keep (λ x, x = Some c) tc j (Some g) None).
      * done.
      * done.
      * congruence.
      * done.
    + intros k _. destruct (decide (k = i)) as [->|Hk].
      * split; intros [_ H]; rewrite Hg in H; congruence.
      * by rewrite list_lookup_insert_ne.
Qed.

Lemma green_step_inv i st :
  i < 5 → green_inv guess target i st →
  ∃ st', TopStarters.green_step guess st i = Some st'
         ∧ green_inv guess target (S i) st'.
Proof.
  intros Hi (Hbal & Hdone & Htodo & Htc). destruct st as [fb tc]; simpl in *.
  destruct (lookup_lt_is_Some_2 guess i) as [g Hg]; [lia |].
  destruct (lookup_lt_is_Some_2 target i) as [t Ht]; [lia |].
  assert (tc !! i = Some (Some t)) as Htci.
  { rewrite Htc by lia. by rewrite list_lookup_fmap, Ht. }
  unfold TopStarters.green_step; simpl. rewrite Hg, Htci; simpl.
  destruct (decide (Some g = Some t)) as [E|E].
  - injection E as <-. eexists. split; [done |].
    assert (i < length fb) as Hilen by (destruct Hbal as [[? _] _]; simpl in *; lia).
    split; [|split; [|split]]; simpl.
    + apply balanced_mark with (g := g); auto.
    + intros j Hj. destruct (decide (j = i)) as [->|Hne].
      * rewrite list_lookup_insert_eq by done. by rewrite Hg, Ht.
      * rewrite list_lookup_insert_ne by done. apply Hdone. lia.
    + intros j Hj Hj5. rewrite list_lookup_insert_ne by lia. apply Htodo; lia.
    + intros j Hj. rewrite list_lookup_insert_ne by lia. apply Htc. lia.
  - eexists. split; [done |].
    split; [|split; [|split]]; simpl; auto.
    + intros j Hj. destruct (decide (j = i)) as [->|Hne].
      * rewrite (Htodo i) by lia. rewrite Hg, Ht. unfold GRAY, GREEN.
        split; intros H; [discriminate | congruence].
      * apply Hdone. lia.
    + intros j Hj Hj5. apply Htodo; lia.
    + intros j Hj. apply Htc. lia.
Qed.

Lemma yellow_step_inv i st :
  i < 5 → yellow_inv guess target st →
  ∃ st', TopStarters.yellow_step guess st i = Some st'
         ∧ yellow_inv guess target st'.
Proof.
  intros Hi (Hbal & Hgreen). destruct st as [fb tc]; simpl in *.
  destruct (outcomes_lookup fb i (proj1 Hbal) Hi) as (d & Hd & _).
  destruct (lookup_lt_is_Some_2 guess i) as [g Hg]; [lia |].
  unfold TopStarters.yellow_step; simpl. rewrite Hd; simpl.
  destruct (decide (d = 0%Z)) as [->|Hne]; [|by eexists].
  rewrite Hg; simpl.
  destruct (Py.contains (Some g) tc) eqn:Hc; [|by eexists].
  destruct (contains_true_index _ _ Hc) as (j & -> & Hj); simpl.
  eexists. split; [done |]. split; simpl.
  - apply balanced_mark with (g := g); auto.
  - intros k Hk. destruct (decide (k = i)) as [->|Hki].
    + rewrite list_lookup_insert_eq by (by apply lookup_lt_Some in Hd).
      rewrite <- (Hgreen i Hi), Hd. unfold GREEN.
      split; intros H; discriminate.
    + rewrite list_lookup_insert_ne by done. by apply Hgreen.
Qed.

(** [top_starters.get_feedback] returns on two words of five letters or
    more, and what it returns satisfies the invariant of the second pass. *)
Lemma passes_spec :
  ∃ st,
    (Py.for_each (TopStarters.green_step guess) (Py.range 5)
       (replicate 5 0%Z, Some <$> target)
     ≫= Py.for_each (TopStarters.yellow_step guess) (Py.range 5)) = Some st
    ∧ yellow_inv guess target st.
Proof.
  destruct (for_each_seq_inv (green_inv guess target)
              (TopStarters.green_step guess) 0 5
              (replicate 5 0%Z, Some <$> target)) as (s1 & E1 & H1).
  - split; [|split; [|split]]; cbn [fst snd].
    + split; cbn [fst snd].
      * split; [done |]. repeat constructor; by left.
      * intros c. unfold marks, unclaimed.
        rewrite filter_length_none.
        -- simpl. clear. induction target as [|x l IH]; [done |].
           rewrite fmap_cons, !filter_cons.
           destruct (decide (x = c)) as [->|Hne].
           ++ rewrite decide_True by done. simpl. by rewrite IH.
           ++ by rewrite decide_False by congruence.
        -- intros i Hi [H _]. apply elem_of_seq in Hi. apply H.
           apply lookup_replicate_2. lia.
    + intros j Hj. lia.
    + intros j _ Hj. apply lookup_replicate_2. lia.
    + done.
  - intros i st Hi. apply green_step_inv. lia.
  - unfold Py.range. rewrite E1. simpl mbind.
    destruct (for_each_seq_inv (λ _, yellow_inv guess target)
                (TopStarters.yellow_step guess) 0 5 s1) as (s2 & E2 & H2).
    + destruct H1 as (Hbal & Hdone & _). split; [done |].
      intros j Hj. apply Hdone. lia.
    + intros i st Hi. apply yellow_step_inv. lia.
    + exists s2. split; [|done]. exact E2.
Qed.

End Passes.

(** ** What the feedback functions return on words *)

Lemma top_starters_returns guess target :
  is_word guess → is_word target →
  ∃ st, TopStarters.get_feedback guess target = Some st.1
        ∧ yellow_inv (Py.chars guess) (Py.chars target) st.
Proof.
  intros Hg Ht. unfold is_word in *. rewrite <- length_chars in Hg, Ht.
  destruct (passes_spec (Py.chars guess) (Py.chars target)) as (st & E & Hinv);
    [lia | lia |].
  exists st. split; [|done]. unfold TopStarters.get_feedback.
  destruct (Py.for_each (TopStarters.green_step _) _ _) as [s1|]; [|done].
  simpl mbind in *. change (Some s1 ≫= ?k) with (k s1) in E. cbv beta in E.
  by rewrite E.
Qed.

Lemma compute_feedback_returns guess target :
  is_word guess → is_word target →
  Wordle.compute_feedback guess target = Some (pattern guess target).
Proof.
  intros Hg Ht. unfold pattern. rewrite compute_feedback_pack.
  destruct (top_starters_returns guess target Hg Ht) as (st & -> & _). done.
Qed.

(** ** The memo table *)

Lemma reachable_consistent w : reachable w → consistent w.
Proof.
  induction 1 as [hf ef|guess target w v w' _ IH Hcall|w hf ef _ IH].
  - apply map_Forall_empty.
  - unfold get_feedback in Hcall. unfold consistent in *.
    destruct (feedback_cache w !! (guess, target)) as [v0|] eqn:Hk.
    + by injection Hcall as <- <-.
    + destruct (Wordle.compute_feedback guess target) as [v1|] eqn:Hv;
        [|done]. simpl in Hcall. injection Hcall as <- <-. simpl.
      by apply map_Forall_insert_2.
  - done.
Qed.

(** In a consistent world [get_feedback] returns what it computes without
    the table, and stores it. *)
Lemma get_feedback_run guess target w :
  consistent w →
  get_feedback guess target w
  = (λ v, (v, set_cache (<[(guess, target) := v]> (feedback_cache w)) w))
      <$> Wordle.compute_feedback guess target.
Proof.
  intros Hw. unfold get_feedback.
  destruct (feedback_cache w !! (guess, target)) as [v|] eqn:Hk; [|done].
  pose proof (Hw _ _ Hk) as Hv. simpl in Hv. rewrite Hv. simpl.
  unfold set_cache. rewrite insert_id by done. by destruct w.
Qed.

Lemma set_cache_consistent guess target v w :
  consistent w → Wordle.compute_feedback guess target = Some v →
  consistent (set_cache (<[(guess, target) := v]> (feedback_cache w)) w).
Proof. intros Hw Hv. unfold consistent. simpl. by apply map_Forall_insert_2. Qed.

Lemma bind_run {A B} (m : M A) (k : A → M B) w a w' :
  m w = Some (a, w') → bind m k w = k a w'.
Proof. intros E. unfold bind. by rewrite E. Qed.

(** A loop whose body calls [get_feedback guess] on each word and folds the
    pattern into its state. *)
Lemma for_each_feedback {S} guess (f : S → string → Z → S) xs s w :
  is_word guess → Forall is_word xs → consistent w →
  ∃ w', for_each_m (λ s x, v <~ get_feedback guess x ;; ret (f s x v)) xs s w
        = Some (foldl (λ s x, f s x (pattern guess x)) s xs, w')
        ∧ consistent w' ∧ same_files w w'.
Proof.
  intros Hg Hxs. revert s w.
  induction Hxs as [|x xs Hx _ IH]; intros s w Hw; simpl.
  - exists w. by repeat split.
  - unfold bind at 1. unfold bind at 1.
    rewrite get_feedback_run by done.
    rewrite (compute_feedback_returns guess x) by done. simpl.
    set (w1 := set_cache _ w).
    destruct (IH (f s x (pattern guess x)) w1) as (w' & E & Hc & Hf1 & Hf2).
    { apply set_cache_consistent; [done |]. by apply compute_feedback_returns. }
    exists w'. by repeat split.
Qed.

(** The pattern of two words in terms of the tuple it packs. *)
Lemma pattern_tuple guess target :
  is_word guess → is_word target →
  ∃ fb, TopStarters.get_feedback guess target = Some fb
        ∧ pattern guess target = pack fb
        ∧ outcomes fb
        ∧ (∀ j, j < 5 →
             (fb !! j = Some GREEN ↔ Py.chars guess !! j = Py.chars target !! j))
        ∧ (∀ c, marks (Py.chars guess) fb c ≤ occurrences c target).
Proof.
  intros Hg Ht.
  destruct (top_starters_returns guess target Hg Ht)
    as ([fb tc] & E & (Hout & Hbal) & Hgreen); simpl in *.
  exists fb. split; [done |]. split.
  { unfold pattern. by rewrite compute_feedback_pack, E. }
  split; [done |]. split; [done |].
  intros c. unfold occurrences. rewrite <- (Hbal c). lia.
Qed.

Lemma get_feedback_returns guess target w :
  is_word guess → is_word target → reachable w →
  ∃ w', get_feedback guess target w = Some (pattern guess target, w')
        ∧ reachable w'.
Proof.
  intros Hg Ht Hw.
  pose proof (get_feedback_run guess target w (reachable_consistent w Hw)) as E.
  rewrite (compute_feedback_returns guess target Hg Ht) in E. simpl in E.
  eexists. split; [exact E |]. by eapply reachable_call.
Qed.

Lemma pattern_self w : is_word w → pattern w w = ALL_GREEN.
Proof.
  intros Hw. destruct (pattern_tuple w w Hw Hw) as (fb & _ & -> & Hout & Hgreen & _).
  assert (fb = replicate 5 GREEN) as ->; [|by vm_compute].
  apply list_eq. intros j. destruct (decide (j < 5)) as [Hj|Hj].
  - rewrite (proj2 (Hgreen j Hj)) by done. symmetry.
    apply lookup_replicate_2. lia.
  - rewrite !lookup_ge_None_2; [done | simpl; lia | destruct Hout; lia].
Qed.

Lemma pattern_all_green_inv guess target :
  is_word guess → is_word target → pattern guess target = ALL_GREEN →
  guess = target.
Proof.
  intros Hg Ht Hp.
  destruct (pattern_tuple guess target Hg Ht) as (fb & _ & E & Hout & Hgreen & _).
  rewrite E in Hp. apply pack_all_green in Hp; [|done]. subst fb.
  apply chars_inj, list_eq. intros j. destruct (decide (j < 5)) as [Hj|Hj].
  - apply Hgreen; [done |]. apply lookup_replicate_2. lia.
  - unfold is_word in *. rewrite <- length_chars in Hg, Ht.
    rewrite !lookup_ge_None_2; [done | lia | lia].
Qed.

(** ** Claims on the feedback codec *)

(** C2. For two five-letter words, [get_feedback] returns a pattern whose
    position [i] is green exactly when [guess[i] == target[i]], and in
    which, for every letter, the green and yellow positions of the guess
    that carry the letter are no more than the occurrences of the letter
    in the target. *)
Theorem get_feedback_green_iff_and_letter_bound guess target w :
  is_word guess → is_word target → reachable w →
  ∃ v w', get_feedback guess target w = Some (v, w')
    ∧ (∀ i, i < 5 →
         (field v i = GREEN ↔ Py.chars guess !! i = Py.chars target !! i))
    ∧ (∀ c, letter_marks guess v c ≤ occurrences c target).
Proof.
  intros Hg Ht Hw.
  destruct (get_feedback_returns guess target w Hg Ht Hw) as (w' & E & _).
  destruct (pattern_tuple guess target Hg Ht)
    as (fb & _ & Hp & Hout & Hgreen & Hmarks).
  exists (pattern guess target), w'. split; [done |]. rewrite Hp. split.
  - intros i Hi. rewrite <- (Hgreen i Hi).
    destruct (outcomes_lookup fb i Hout Hi) as (d & Hd & _).
    rewrite (field_pack fb i d Hout Hd), Hd. split; congruence.
  - intros c. etrans; [|apply (Hmarks c)]. apply Nat.eq_le_incl.
    unfold letter_marks, marks. apply filter_length_ext.
    intros i Hi. apply elem_of_seq in Hi.
    destruct (outcomes_lookup fb i Hout) as (d & Hd & Hdd); [lia |].
    rewrite (field_pack fb i d Hout Hd), Hd.
    unfold GRAY, YELLOW, GREEN in *.
    split; intros [H1 H2]; (split; [|done]).
    + destruct Hdd as [->|[->| ->]]; [congruence | by left | by right].
    + destruct H1; congruence.
Qed.

Lemma get_feedback_green_iff_and_letter_bound_witness :
  ∃ v w', get_feedback "aabbb" "ababa" (World ∅ None None) = Some (v, w')
    ∧ (∀ i, i < 5 →
         (field v i = GREEN ↔ Py.chars "aabbb" !! i = Py.chars "ababa" !! i))
    ∧ (∀ c, letter_marks "aabbb" v c ≤ occurrences c "ababa").
Proof.
  apply (get_feedback_green_iff_and_letter_bound "aabbb" "ababa").
  - reflexivity.
  - reflexivity.
  - apply reachable_start.
Defined.

(** ** The session loop *)

Lemma bind_inv {A B} (m : M A) (k : A → M B) w r :
  bind m k w = Some r → ∃ a w1, m w = Some (a, w1) ∧ k a w1 = Some r.
Proof.
  unfold bind. destruct (m w) as [[a w1]|]; [|done]. intros E. by exists a, w1.
Qed.

Lemma lift_inv {A} (o : option A) w r :
  lift o w = Some r → ∃ a, o = Some a ∧ r = (a, w).
Proof.
  unfold lift. destruct o as [a|]; [|done]. intros [= <-]. by exists a.
Qed.

Lemma read_feedback_suffix inputs feedback rest :
  read_feedback inputs = Some (feedback, rest) → rest `suffix_of` inputs.
Proof.
  induction inputs as [|line inputs IH]; [done |]. cbn [read_feedback].
  destruct (parse_feedback _) as [v|[msg|]]; [| |done].
  - intros [= <- <-]. by apply suffix_cons_r.
  - intros E. by apply suffix_cons_r, IH.
Qed.

(** [wordle_bot] reports the puzzle solved only when a feedback it has read
    is the all-green pattern. *)
Lemma rounds_solved_inv word_list initial_entropy attempts possible_words
    inputs guesses w gs w' :
  rounds word_list initial_entropy attempts possible_words inputs guesses w
  = Some ((Solved, gs), w') →
  ∃ inputs' rest, inputs' `suffix_of` inputs
                  ∧ read_feedback inputs' = Some (682%Z, rest).
Proof.
  revert possible_words inputs guesses w.
  induction attempts as [|attempt later IH];
    intros possible_words inputs guesses w; [done |].
  destruct possible_words as [|word others]; [done |]. cbn [rounds].
  intros E. apply bind_inv in E as (guess & w1 & _ & E).
  apply bind_inv in E as (fr & w2 & Hread & E).
  apply lift_inv in Hread as ([fb rest] & Hread & [= -> ->]). simpl in E.
  destruct (decide (fb = 682%Z)) as [->|Hne].
  - exists inputs, rest. by split.
  - apply bind_inv in E as (pw' & w3 & _ & E).
    apply IH in E as (inputs' & rest' & Hsuf & Hr).
    exists inputs', rest'. split; [|done].
    etrans; [exact Hsuf |]. by eapply read_feedback_suffix.
Qed.

(** C8. The pattern of a five-letter word against itself is the all-green
    pattern 682, every field of which is green; among five-letter words only
    a guess equal to the target yields it; and [wordle_bot] ends a session
    as solved only on reading that pattern. *)
Theorem get_feedback_self_all_green word w :
  is_word word → reachable w →
  (∃ w', get_feedback word word w = Some (682%Z, w'))
  ∧ (∀ i, i < 5 → field 682 i = GREEN)
  ∧ (∀ guess target w0 w1,
       is_word guess → is_word target → reachable w0 →
       get_feedback guess target w0 = Some (682%Z, w1) → guess = target)
  ∧ (∀ word_list initial_entropy attempts possible_words inputs guesses
       w0 gs w1,
       rounds word_list initial_entropy attempts possible_words inputs
         guesses w0 = Some ((Solved, gs), w1) →
       ∃ inputs' rest, inputs' `suffix_of` inputs
                       ∧ read_feedback inputs' = Some (682%Z, rest)).
Proof.
  intros Hword Hw. split; [|split; [|split]].
  - destruct (get_feedback_returns word word w Hword Hword Hw) as (w' & E & _).
    exists w'. by rewrite E, pattern_self.
  - intros i Hi. do 5 (destruct i as [|i]; [by vm_compute |]). lia.
  - intros guess target w0 w1 Hg Ht Hw0 E.
    destruct (get_feedback_returns guess target w0 Hg Ht Hw0) as (w2 & E2 & _).
    rewrite E in E2. injection E2 as Hp _.
    by apply pattern_all_green_inv.
  - intros. by eapply rounds_solved_inv.
Qed.

Lemma get_feedback_self_all_green_witness :
  (∃ w', get_feedback "close" "close" (World ∅ None None) = Some (682%Z, w'))
  ∧ (∀ i, i < 5 → field 682 i = GREEN)
  ∧ (∀ guess target w0 w1,
       is_word guess → is_word target → reachable w0 →
       get_feedback guess target w0 = Some (682%Z, w1) → guess = target)
  ∧ (∀ word_list initial_entropy attempts possible_words inputs guesses
       w0 gs w1,
       rounds word_list initial_entropy attempts possible_words inputs
         guesses w0 = Some ((Solved, gs), w1) →
       ∃ inputs' rest, inputs' `suffix_of` inputs
                       ∧ read_feedback inputs' = Some (682%Z, rest)).
Proof.
  apply (get_feedback_self_all_green "close").
  - reflexivity.
  - apply reachable_start.
Defined.

(** C10. For two five-letter words [top_starters.get_feedback] returns a
    tuple of five outcomes and [wordle.get_feedback] returns the integer
    that packs it: field [i] of the integer is entry [i] of the tuple. *)
Theorem get_feedback_packs_top_starters guess target w :
  is_word guess → is_word target → reachable w →
  ∃ fb w', TopStarters.get_feedback guess target = Some fb
    ∧ get_feedback guess target w = Some (pack fb, w')
    ∧ length fb = 5
    ∧ (∀ i d, fb !! i = Some d → field (pack fb) i = d).
Proof.
  intros Hg Ht Hw.
  destruct (get_feedback_returns guess target w Hg Ht Hw) as (w' & E & _).
  destruct (pattern_tuple guess target Hg Ht) as (fb & Efb & Hp & Hout & _).
  exists fb, w'. split; [done |]. split; [by rewrite <- Hp |].
  split; [apply Hout |]. intros i d Hd. by apply field_pack.
Qed.

Lemma get_feedback_packs_top_starters_witness :
  ∃ fb w', TopStarters.get_feedback "aabbb" "ababa" = Some fb
    ∧ get_feedback "aabbb" "ababa" (World ∅ None None) = Some (pack fb, w')
    ∧ length fb = 5
    ∧ (∀ i d, fb !! i = Some d → field (pack fb) i = d).
Proof.
  apply (get_feedback_packs_top_starters "aabbb" "ababa").
  - reflexivity.
  - reflexivity.
  - apply reachable_start.
Defined.

(** C7, as [wordle.py] has it: in every world a run can be in, the value
    that [get_feedback] returns is the one computed from [guess] and
    [target] alone, whatever calls came before; the call leaves the files
    alone and its only effect is the entry for [(guess, target)] in the
    module-level [feedback_cache]. *)
Theorem get_feedback_value_independent_of_history guess target w :
  reachable w →
  fst <$> get_feedback guess target w = Wordle.compute_feedback guess target
  ∧ (∀ v w', get_feedback guess target w = Some (v, w') →
       reachable w'
       ∧ w' = set_cache (<[(guess, target) := v]> (feedback_cache w)) w).
Proof.
  intros Hw. rewrite (get_feedback_run guess target w (reachable_consistent w Hw)).
  split.
  - by destruct (Wordle.compute_feedback guess target).
  - intros v w' E. split.
    + apply (reachable_call guess target w v w' Hw).
      by rewrite (get_feedback_run guess target w (reachable_consistent w Hw)).
    + destruct (Wordle.compute_feedback guess target); simpl in E; congruence.
Qed.

Lemma get_feedback_value_independent_of_history_witness :
  fst <$> get_feedback "abcde" "edcba" (World ∅ None None)
  = Wordle.compute_feedback "abcde" "edcba"
  ∧ (∀ v w', get_feedback "abcde" "edcba" (World ∅ None None) = Some (v, w') →
       reachable w'
       ∧ w' = set_cache (<[("abcde", "edcba") := v]>
                           (feedback_cache (World ∅ None None)))
                (World ∅ None None)).
Proof.
  apply (get_feedback_value_independent_of_history "abcde" "edcba").
  apply reachable_start.
Defined.

(** C7 as stated fails: a call of [get_feedback] on a pair it has not seen
    changes the module-level [feedback_cache], a state that outlives the
    call. *)
Lemma get_feedback_writes_feedback_cache :
  ∃ v w', get_feedback "abcde" "edcba" (World ∅ None None) = Some (v, w')
          ∧ w' ≠ World ∅ None None
          ∧ feedback_cache w' !! ("abcde", "edcba") = Some 357%Z.
Proof.
  eexists _, _. split; [reflexivity |]. split.
  - intros H. apply (f_equal (λ w, feedback_cache w !! ("abcde", "edcba"))) in H.
    simpl in H. rewrite lookup_insert_eq, lookup_empty in H. discriminate H.
  - simpl. by rewrite lookup_insert_eq.
Qed.

(** ** The candidate filter *)

Lemma filter_loop guess feedback xs acc :
  is_word guess → Forall is_word xs →
  foldl (λ s x, if decide (pattern guess x = feedback) then s ++ [x] else s)
    acc xs
  = acc ++ filter (λ x, Wordle.compute_feedback guess x = Some feedback) xs.
Proof.
  intros Hg Hxs. revert acc.
  induction Hxs as [|x xs Hx _ IH]; intros acc; simpl.
  - by rewrite app_nil_r.
  - rewrite IH, filter_cons, (compute_feedback_returns guess x Hg Hx).
    destruct (decide (pattern guess x = feedback)) as [E|E].
    + rewrite decide_True by congruence. by rewrite <- app_assoc.
    + by rewrite decide_False by congruence.
Qed.

Lemma filter_possible_words_run guess feedback possible_words w :
  is_word guess → Forall is_word possible_words → consistent w →
  ∃ w', filter_possible_words guess feedback possible_words w
        = Some (filter (λ x, Wordle.compute_feedback guess x = Some feedback)
                  possible_words, w')
        ∧ consistent w' ∧ same_files w w'.
Proof.
  intros Hg Hxs Hw. unfold filter_possible_words.
  destruct (for_each_feedback guess
              (λ s x v, if decide (v = feedback) then s ++ [x] else s)
              possible_words [] w Hg Hxs Hw) as (w' & E & Hc & Hf).
  exists w'. split; [|done]. rewrite E. by rewrite filter_loop.
Qed.

Lemma filter_twice {A} (P : A → Prop) `{∀ x, Decision (P x)} (l : list A) :
  filter P (filter P l) = filter P l.
Proof.
  induction l as [|x l IH]; [done |].
  rewrite filter_cons. destruct (decide (P x)) as [p|p]; [|done].
  by rewrite filter_cons, decide_True, IH.
Qed.

(** C3. On five-letter words, [filter_possible_words] returns the words of
    [possible_words], in their order, whose feedback for [guess] is
    [feedback], and no others: a word is in the result exactly when it is in
    the list and has that feedback. The list is only read. *)
Theorem filter_possible_words_exact guess feedback possible_words w :
  is_word guess → Forall is_word possible_words → reachable w →
  ∃ kept w',
    filter_possible_words guess feedback possible_words w = Some (kept, w')
    ∧ kept = filter (λ x, Wordle.compute_feedback guess x = Some feedback)
               possible_words
    ∧ (∀ x, x ∈ kept ↔
            x ∈ possible_words ∧ Wordle.compute_feedback guess x = Some feedback).
Proof.
  intros Hg Hxs Hw.
  destruct (filter_possible_words_run guess feedback possible_words w Hg Hxs
              (reachable_consistent w Hw)) as (w' & E & _).
  eexists _, w'. split; [exact E |]. split; [done |].
  intros x. rewrite list_elem_of_filter. tauto.
Qed.

Lemma filter_possible_words_exact_witness :
  ∃ kept w',
    filter_possible_words "close" 682 ["close"; "clone"; "abbey"]
      (World ∅ None None) = Some (kept, w')
    ∧ kept = filter (λ x, Wordle.compute_feedback "close" x = Some 682%Z)
               ["close"; "clone"; "abbey"]
    ∧ (∀ x, x ∈ kept ↔
            x ∈ ["close"; "clone"; "abbey"]
            ∧ Wordle.compute_feedback "close" x = Some 682%Z).
Proof.
  apply (filter_possible_words_exact "close" 682 ["close"; "clone"; "abbey"]).
  - reflexivity.
  - repeat constructor.
  - apply reachable_start.
Defined.

(** The result of the filter may be empty: the only candidate, guessed and
    answered with anything but all green, is dropped. *)
Example filter_possible_words_may_be_empty :
  fst <$> filter_possible_words "close" 0 ["close"] (World ∅ None None)
  = Some [].
Proof. reflexivity. Qed.

(** C9. Filtering the result of [filter_possible_words] again with the same
    guess and pattern returns the same list. *)
Theorem filter_possible_words_idempotent guess feedback possible_words w :
  is_word guess → Forall is_word possible_words → reachable w →
  ∃ kept w1 w2,
    filter_possible_words guess feedback possible_words w = Some (kept, w1)
    ∧ filter_possible_words guess feedback kept w1 = Some (kept, w2).
Proof.
  intros Hg Hxs Hw.
  destruct (filter_possible_words_run guess feedback possible_words w Hg Hxs
              (reachable_consistent w Hw)) as (w1 & E1 & Hw1 & _).
  set (kept := filter _ possible_words) in *.
  assert (Forall is_word kept) as Hkept.
  { apply Forall_forall. intros x Hx. apply list_elem_of_filter in Hx as [_ Hx].
    by eapply Forall_forall in Hxs. }
  destruct (filter_possible_words_run guess feedback kept w1 Hg Hkept Hw1)
    as (w2 & E2 & _).
  exists kept, w1, w2. split; [done |]. rewrite E2. unfold kept.
  by rewrite filter_twice.
Qed.

Lemma filter_possible_words_idempotent_witness :
  ∃ kept w1 w2,
    filter_possible_words "crane" 0 ["crane"; "sloth"; "moody"]
      (World ∅ None None) = Some (kept, w1)
    ∧ filter_possible_words "crane" 0 kept w1 = Some (kept, w2).
Proof.
  apply (filter_possible_words_idempotent "crane" 0 ["crane"; "sloth"; "moody"]).
  - reflexivity.
  - repeat constructor.
  - apply reachable_start.
Defined.

(** ** Reading feedback tokens *)

Lemma isspace_lower c : Py.isspace (Py.lower_char c) = Py.isspace c.
Proof. destruct c as [[] [] [] [] [] [] [] []]; reflexivity. Qed.

Lemma lower_char_idem c : Py.lower_char (Py.lower_char c) = Py.lower_char c.
Proof. destruct c as [[] [] [] [] [] [] [] []]; reflexivity. Qed.

Lemma lower_idem s : Py.lower (Py.lower s) = Py.lower s.
Proof.
  unfold Py.lower. rewrite <- list_fmap_compose. apply list_fmap_ext.
  intros _ c _. apply lower_char_idem.
Qed.

Lemma lstrip_lower s : Py.lstrip (Py.lower s) = Py.lower (Py.lstrip s).
Proof.
  induction s as [|c s IH]; [done |]. simpl.
  rewrite isspace_lower. by destruct (Py.isspace c).
Qed.

Lemma reverse_lower s : reverse (Py.lower s) = Py.lower (reverse s).
Proof. unfold Py.lower. by rewrite fmap_reverse. Qed.

Lemma strip_lower s : Py.strip (Py.lower s) = Py.lower (Py.strip s).
Proof.
  unfold Py.strip.
  by rewrite lstrip_lower, reverse_lower, lstrip_lower, reverse_lower.
Qed.

Section Separators.

(** A separator set that contains the whitespace. *)
Variable sep : ascii → bool.
Hypothesis sep_space : ∀ c, Py.isspace c = true → sep c = true.

Lemma split_from_lstrip s :
  Py.split_from sep [] (Py.lstrip s) = Py.split_from sep [] s.
Proof.
  induction s as [|c s IH]; [done |]. simpl.
  destruct (Py.isspace c) eqn:E; [|done]. by rewrite (sep_space c E).
Qed.

Lemma split_from_trailing tok s ws :
  Forall (λ c, Py.isspace c = true) ws →
  Py.split_from sep tok (s ++ ws) = Py.split_from sep tok s.
Proof.
  intros Hws. revert tok. induction s as [|c s IH]; intros tok; simpl.
  - revert tok. induction Hws as [|c ws Hc _ IHws]; intros tok; [done |].
    simpl. rewrite (sep_space c Hc). destruct tok; by rewrite IHws.
  - destruct (sep c); [destruct tok|]; by rewrite IH.
Qed.

Lemma lstrip_decompose z :
  ∃ ws, Forall (λ c, Py.isspace c = true) ws ∧ z = ws ++ Py.lstrip z.
Proof.
  induction z as [|c z (ws & Hws & E)]; [by exists [] |]. simpl.
  destruct (Py.isspace c) eqn:Hc.
  - exists (c :: ws). split; [by constructor |]. simpl. by f_equal.
  - by exists [].
Qed.

Lemma split_from_strip s :
  Py.split_from sep [] (Py.strip s) = Py.split_from sep [] s.
Proof.
  unfold Py.strip. rewrite <- (split_from_lstrip s).
  destruct (lstrip_decompose (reverse (Py.lstrip s))) as (ws & Hws & E).
  apply (f_equal reverse) in E. rewrite reverse_involutive, reverse_app in E.
  rewrite E at 2. symmetry. apply split_from_trailing.
  by apply Forall_reverse.
Qed.

End Separators.

Lemma split_replace_comma tok s :
  Py.split_from Py.isspace tok (Py.replace_char "," " " s)
  = Py.split_from (λ c, Py.isspace c || bool_decide (c = ","%char)) tok s.
Proof.
  revert tok. induction s as [|c s IH]; intros tok; [done |].
  unfold Py.replace_char in *. rewrite fmap_cons. simpl.
  destruct (decide (c = ","%char)) as [->|Hne].
  - simpl. destruct tok; by rewrite IH.
  - rewrite bool_decide_eq_false_2, orb_false_r by done.
    destruct (Py.isspace c); [destruct tok|]; by rewrite IH.
Qed.

(** The tokens that [parse_feedback] reads are those of the lowercased
    input split at whitespace and commas. *)
Lemma feedback_tokens_lowered s : feedback_tokens s = lowered_tokens s.
Proof.
  unfold feedback_tokens, lowered_tokens, Py.split.
  rewrite split_replace_comma, <- strip_lower.
  apply split_from_strip. intros c ->. done.
Qed.

(** [wordle_bot] strips and lowercases a line before [parse_feedback] does
    so again; the tokens are the same. *)
Lemma feedback_tokens_prepared line :
  feedback_tokens (string_of_list_ascii (Py.lower (Py.strip (Py.chars line))))
  = feedback_tokens line.
Proof.
  rewrite !feedback_tokens_lowered. unfold lowered_tokens, Py.chars.
  rewrite list_ascii_of_string_of_list_ascii, lower_idem, <- strip_lower.
  apply split_from_strip. intros c ->. done.
Qed.

Lemma token_outcome_feedback_map token :
  colour_code <$> dict_get token feedback_map = token_outcome token.
Proof.
  unfold feedback_map, token_outcome. simpl.
  repeat (match goal with
          | |- context [decide (?k = token)] =>
              destruct (decide (k = token)) as [<-|?]; [reflexivity |]
          end).
  simpl. rewrite !decide_False; [done | | |]; intros [|]; congruence.
Qed.

Lemma feedback_map_colours token colour :
  dict_get token feedback_map = Some colour →
  colour = "green" ∨ colour = "yellow" ∨ colour = "gray".
Proof.
  unfold feedback_map. simpl.
  repeat (match goal with
          | |- context [decide (?k = token)] =>
              destruct (decide (k = token)) as [<-|?];
              [intros [= <-]; tauto |]
          end).
  done.
Qed.

Lemma translate_tokens_inr tokens acc feedback :
  translate_tokens tokens acc = inr feedback ↔
  ∃ cs, Forall2 (λ t c, dict_get t feedback_map = Some c) tokens cs
        ∧ feedback = acc ++ cs.
Proof.
  revert acc. induction tokens as [|t ts IH]; intros acc; cbn [translate_tokens].
  - split.
    + intros [= <-]. exists []. by rewrite app_nil_r.
    + intros (cs & H & ->). inversion H. by rewrite app_nil_r.
  - destruct (dict_get t feedback_map) as [c|] eqn:Ht.
    + rewrite IH. split.
      * intros (cs & H & ->). exists (c :: cs). split; [by constructor |].
        by rewrite <- app_assoc.
      * intros (cs & H & ->). inversion H as [|? c' ? cs' Hc Hcs]; subst.
        exists cs'. split; [done |]. rewrite <- app_assoc.
        simpl. congruence.
    + split; [done |]. intros (cs & H & _).
      inversion H; subst; congruence.
Qed.

(** The encoding loop on five colour names packs their codes; checked on
    the 243 lists of five names. *)
Lemma encode_loop cs :
  length cs = 5 →
  Forall (λ c, c = "green" ∨ c = "yellow" ∨ c = "gray") cs →
  Py.for_each (encode_step cs) (Py.range 5) 0%Z
  = Some (pack (colour_code <$> cs)).
Proof.
  intros Hlen Hall.
  do 6 (destruct cs as [|? cs]; simpl in Hlen; try discriminate Hlen).
  repeat (match goal with
          | H : Forall _ (_ :: _) |- _ =>
              apply Forall_cons in H;
              let Hd := fresh "Hd" in
              destruct H as [Hd H]; destruct Hd as [->|[->| ->]]
          end);
  reflexivity.
Qed.

Lemma parse_feedback_ok feedback_str v :
  parse_feedback feedback_str = Ok v ↔
  ∃ cs, Forall2 (λ t c, dict_get t feedback_map = Some c)
          (feedback_tokens feedback_str) cs
        ∧ length cs = 5 ∧ v = pack (colour_code <$> cs).
Proof.
  unfold parse_feedback.
  destruct (translate_tokens (feedback_tokens feedback_str) [])
    as [bad|feedback] eqn:Ht.
  - split; [done |]. intros (cs & H & _).
    assert (translate_tokens (feedback_tokens feedback_str) [] = inr cs) as E
      by (apply translate_tokens_inr; by exists cs).
    congruence.
  - apply translate_tokens_inr in Ht as (cs & Hcs & ->). cbn [app].
    assert (Forall (λ c, c = "green" ∨ c = "yellow" ∨ c = "gray") cs) as Hcol.
    { clear -Hcs. induction Hcs as [|t c ts cs Hc _ IH]; constructor; [|done].
      by eapply feedback_map_colours. }
    destruct (decide (length cs ≠ 5)) as [Hlen|Hlen].
    + split; [done |]. intros (cs' & H' & Hlen' & _).
      apply Forall2_length in Hcs, H'. lia.
    + assert (length cs = 5) as Hlen5 by lia.
      rewrite (encode_loop cs Hlen5 Hcol). split.
      * intros [= <-]. by exists cs.
      * intros (cs' & H' & _ & ->). f_equal. f_equal. f_equal.
        clear -Hcs H'. revert cs' H'.
        induction Hcs as [|t c ts cs Hc _ IH]; intros cs' H'; inversion H'; subst.
        -- done.
        -- f_equal; [congruence | by apply IH].
Qed.

Lemma parse_feedback_raises feedback_str :
  (∃ v, parse_feedback feedback_str = Ok v)
  ∨ (∃ msg, parse_feedback feedback_str = Raise (ValueError msg)).
Proof.
  unfold parse_feedback.
  destruct (translate_tokens (feedback_tokens feedback_str) [])
    as [bad|feedback] eqn:Ht; [right; by eexists |].
  apply translate_tokens_inr in Ht as (cs & Hcs & ->). cbn [app].
  destruct (decide (length cs ≠ 5)) as [Hlen|Hlen]; [right; by eexists |].
  left. rewrite (encode_loop cs); [by eexists | lia |].
  clear -Hcs. induction Hcs as [|t c ts cs Hc _ IH]; constructor; [|done].
  by eapply feedback_map_colours.
Qed.

Lemma parse_feedback_prepared line :
  parse_feedback (string_of_list_ascii (Py.lower (Py.strip (Py.chars line))))
  = parse_feedback line.
Proof. unfold parse_feedback. by rewrite feedback_tokens_prepared. Qed.

Lemma read_feedback_rejected line inputs msg :
  parse_feedback line = Raise (ValueError msg) →
  read_feedback (line :: inputs) = read_feedback inputs.
Proof.
  intros E. cbn [read_feedback]. by rewrite parse_feedback_prepared, E.
Qed.

Lemma token_outcomes_colours tokens fb :
  Forall2 (λ t d, token_outcome t = Some d) tokens fb ↔
  ∃ cs, Forall2 (λ t c, dict_get t feedback_map = Some c) tokens cs
        ∧ fb = colour_code <$> cs.
Proof.
  split.
  - induction 1 as [|t d ts fb Ht _ (cs & Hcs & ->)]; [by exists [] |].
    rewrite <- token_outcome_feedback_map in Ht.
    destruct (dict_get t feedback_map) as [c|] eqn:Hc; [|done].
    injection Ht as <-. exists (c :: cs). split; [by constructor | done].
  - intros (cs & Hcs & ->).
    induction Hcs as [|t c ts cs Hc _ IH]; [constructor |].
    rewrite fmap_cons. constructor; [|done].
    by rewrite <- token_outcome_feedback_map, Hc.
Qed.

Lemma colour_codes_outcomes cs :
  length cs = 5 → outcomes (colour_code <$> cs).
Proof.
  intros Hlen. split; [by rewrite length_fmap |].
  apply Forall_fmap, Forall_forall. intros c _. unfold colour_code. simpl.
  repeat case_decide; auto.
Qed.

(** C5. [parse_feedback] returns a pattern exactly when the input,
    lowercased and split at whitespace and commas, is five tokens among
    g, y, b, gray, green and yellow; the pattern packs the outcomes of the
    tokens, green as 2, yellow as 1, gray as 0, the first token in the
    most significant field. In every other case it raises [ValueError],
    and [wordle_bot], which catches it and prompts again, goes on as if the
    line had not been entered: the attempt, the pending guess and the
    candidates are those before the line. *)
Theorem parse_feedback_accepts_exactly feedback_str :
  (∀ v, parse_feedback feedback_str = Ok v ↔
        ∃ fb, Forall2 (λ t d, token_outcome t = Some d)
                (lowered_tokens feedback_str) fb
              ∧ length fb = 5 ∧ v = pack fb
              ∧ (∀ i d, fb !! i = Some d → field v i = d))
  ∧ ((∃ v, parse_feedback feedback_str = Ok v)
     ∨ (∃ msg, parse_feedback feedback_str = Raise (ValueError msg)))
  ∧ (∀ msg, parse_feedback feedback_str = Raise (ValueError msg) →
       ∀ word_list initial_entropy attempts possible_words inputs guesses,
         rounds word_list initial_entropy attempts possible_words
           (feedback_str :: inputs) guesses
         = rounds word_list initial_entropy attempts possible_words
             inputs guesses).
Proof.
  split; [|split].
  - intros v. rewrite parse_feedback_ok, feedback_tokens_lowered. split.
    + intros (cs & Hcs & Hlen & ->). exists (colour_code <$> cs).
      split; [apply token_outcomes_colours; by exists cs |].
      split; [by rewrite length_fmap |]. split; [done |].
      intros i d Hd. apply field_pack; [|done]. by apply colour_codes_outcomes.
    + intros (fb & Hfb & Hlen & -> & _).
      apply token_outcomes_colours in Hfb as (cs & Hcs & ->).
      exists cs. split; [done |]. split; [|done]. by rewrite length_fmap in Hlen.
  - apply parse_feedback_raises.
  - intros msg E word_list initial_entropy attempts possible_words inputs guesses.
    destruct attempts as [|attempt later]; [done |].
    destruct possible_words as [|word rest]; [done |].
    cbn [rounds]. by rewrite (read_feedback_rejected feedback_str inputs msg E).
Qed.

(** ** The pattern counter *)

Lemma counter_incr_sum pattern counts :
  sum_list (counter_incr pattern counts).*2 = S (sum_list counts.*2).
Proof.
  induction counts as [|[p n] r IH]; [done |]. cbn [counter_incr].
  destruct (decide (p = pattern)); rewrite !fmap_cons; cbn [sum_list snd];
    [done |]. rewrite IH. lia.
Qed.

Lemma counter_incr_positive pattern counts :
  Forall (λ n, 1 ≤ n) counts.*2 →
  Forall (λ n, 1 ≤ n) (counter_incr pattern counts).*2.
Proof.
  induction counts as [|[p n] r IH]; intros H; cbn [counter_incr].
  - by repeat constructor.
  - rewrite fmap_cons in H. apply Forall_cons in H as [Hn Hr]. simpl in Hn.
    destruct (decide (p = pattern)); rewrite fmap_cons; constructor; auto.
    simpl. lia.
Qed.


Lemma counts_fold_sum (f : string → Z) xs counts :
  sum_list (foldl (λ cs x, counter_incr (f x) cs) counts xs).*2
  = sum_list counts.*2 + length xs.
Proof.
  revert counts. induction xs as [|x xs IH]; intros counts; simpl; [lia |].
  rewrite IH, counter_incr_sum. lia.
Qed.

Lemma counts_fold_positive (f : string → Z) xs counts :
  Forall (λ n, 1 ≤ n) counts.*2 →
  Forall (λ n, 1 ≤ n) (foldl (λ cs x, counter_incr (f x) cs) counts xs).*2.
Proof.
  revert counts. induction xs as [|x xs IH]; intros counts H; simpl; [done |].
  by apply IH, counter_incr_positive.
Qed.


Lemma pattern_counts_sum guess possible_words :
  sum_list (pattern_counts_of guess possible_words).*2 = length possible_words.
Proof. unfold pattern_counts_of. by rewrite counts_fold_sum. Qed.

Lemma pattern_counts_positive guess possible_words :
  Forall (λ n, 1 ≤ n) (pattern_counts_of guess possible_words).*2.
Proof. unfold pattern_counts_of. apply counts_fold_positive. constructor. Qed.


(** ** The entropy of a counter *)





Lemma INR_pos n : 1 ≤ n → (0 < INR n)%R.
Proof. intros H. apply lt_0_INR. lia. Qed.

Lemma entropy_step_returns total entropy count :
  total ≠ 0 → 1 ≤ count →
  entropy_step total entropy count
  = Some (entropy + entropy_term total count)%R.
Proof.
  intros Ht Hc. unfold entropy_step, Py.true_div, Py.log2.
  destruct (decide (total = 0)) as [|_]; [done |]. cbn [mbind option_bind].
  assert (0 < INR count / INR total)%R as Hp.
  { apply Rdiv_lt_0_compat; apply INR_pos; lia. }
  destruct (Rlt_dec 0 (INR count / INR total)) as [_|Hno]; [|done].
  reflexivity.
Qed.

Lemma entropy_loop total counts acc :
  total ≠ 0 → Forall (λ n, 1 ≤ n) counts →
  Py.for_each (entropy_step total) counts acc
  = Some (acc + sum_R (entropy_term total <$> counts))%R.
Proof.
  intros Ht Hc. revert acc.
  induction Hc as [|n counts Hn _ IH]; intros acc.
  - simpl. f_equal. lra.
  - cbn [Py.for_each]. rewrite entropy_step_returns by done.
    cbn [mbind option_bind]. rewrite IH. f_equal.
    rewrite fmap_cons. unfold sum_R. cbn [foldr]. lra.
Qed.









(** ** The entropy evaluator *)

Lemma calculate_entropy_run guess possible_words w :
  is_word guess → Forall is_word possible_words → consistent w →
  ∃ w', calculate_entropy guess possible_words w
        = Some (entropy_of guess possible_words, w')
        ∧ consistent w' ∧ same_files w w'.
Proof.
  intros Hg Hxs Hw. unfold calculate_entropy.
  destruct (for_each_feedback guess (λ counts word v, counter_incr v counts)
              possible_words [] w Hg Hxs Hw) as (w' & E & Hc & Hf).
  rewrite (bind_run _ _ _ _ _ E). fold (pattern_counts_of guess possible_words).
  exists w'. split; [|done]. unfold lift, entropy_of.
  destruct possible_words as [|x xs]; [done |].
  rewrite entropy_loop.
  - by rewrite Rplus_0_l.
  - done.
  - apply pattern_counts_positive.
Qed.



Lemma entropy_of_small guess possible_words :
  length possible_words ≤ 1 → entropy_of guess possible_words = 0%R.
Proof.
  intros Hlen. destruct possible_words as [|x [|y r]]; [| |simpl in Hlen; lia].
  - reflexivity.
  - unfold entropy_of, pattern_counts_of, entropy_term, log2_real. cbn.
    replace (1 / 1)%R with 1%R by lra. rewrite ln_1. lra.
Qed.




(** ** The guess selector *)

Lemma calculate_entropy_wrapper_run guess possible_words w :
  is_word guess → Forall is_word possible_words → consistent w →
  ∃ w', calculate_entropy_wrapper (guess, possible_words) w
        = Some ((guess, entropy_of guess possible_words), w')
        ∧ consistent w'.
Proof.
  intros Hg Hxs Hw.
  destruct (calculate_entropy_run guess possible_words w Hg Hxs Hw)
    as (w' & E & Hc & _).
  exists w'. split; [|done]. unfold calculate_entropy_wrapper.
  by rewrite (bind_run _ _ _ _ _ E).
Qed.

Lemma wrapper_loop possible_words guesses acc w :
  Forall is_word guesses → Forall is_word possible_words → consistent w →
  ∃ w', for_each_m
          (λ acc a, b <~ calculate_entropy_wrapper a ;; ret (acc ++ [b]))
          ((λ guess, (guess, possible_words)) <$> guesses) acc w
        = Some (acc ++ ((λ g, (g, entropy_of g possible_words)) <$> guesses), w')
        ∧ consistent w'.
Proof.
  intros Hgs Hxs. revert acc w.
  induction Hgs as [|g gs Hg _ IH]; intros acc w Hw.
  - exists w. split; [|done]. simpl. by rewrite app_nil_r.
  - rewrite !fmap_cons. cbn [for_each_m].
    destruct (calculate_entropy_wrapper_run g possible_words w Hg Hxs Hw)
      as (w1 & E1 & Hw1).
    assert ((b <~ calculate_entropy_wrapper (g, possible_words) ;;
             ret (acc ++ [b])) w
            = Some (acc ++ [(g, entropy_of g possible_words)], w1)) as Hbody
      by (by rewrite (bind_run _ _ _ _ _ E1)).
    rewrite (bind_run _ _ _ _ _ Hbody).
    destruct (IH (acc ++ [(g, entropy_of g possible_words)]) w1 Hw1)
      as (w' & E & Hw').
    exists w'. split; [|done]. rewrite E. by rewrite <- app_assoc.
Qed.

(** The workers leave the caller's world as it was. *)
Lemma pool_map_entropies possible_words guesses w :
  Forall is_word guesses → Forall is_word possible_words → consistent w →
  pool_map calculate_entropy_wrapper
    ((λ guess, (guess, possible_words)) <$> guesses) w
  = Some ((λ g, (g, entropy_of g possible_words)) <$> guesses, w).
Proof.
  intros Hgs Hxs Hw. unfold pool_map.
  destruct (wrapper_loop possible_words guesses [] w Hgs Hxs Hw) as (w' & E & _).
  by rewrite E.
Qed.

(** What [select_best_guess_parallel] returns: the best guess among
    [possible_words], whatever [word_list] is. *)
Lemma select_best_guess_parallel_run word_list possible_words w :
  Forall is_word possible_words → consistent w →
  select_best_guess_parallel word_list possible_words w
  = (λ best, (best, w)) <$> best_of_pool possible_words possible_words.
Proof.
  intros Hxs Hw. unfold select_best_guess_parallel, best_of_pool.
  rewrite (bind_run _ _ _ _ _ (pool_map_entropies _ _ w Hxs Hxs Hw)).
  unfold bind, lift, ret.
  by destruct (Py.max_by snd _) as [[best e]|].
Qed.

(** C1 fails on the code. With the pool [aaaaa, bbbbb] and the single
    candidate [bbbbb] both words of the pool have entropy 0, so the earliest
    word of the pool with the greatest entropy is [aaaaa]; but
    [select_best_guess_parallel] does not read its argument [word_list] and
    returns [bbbbb], the best of the candidates. *)
Theorem select_best_guess_parallel_ignores_pool :
  best_of_pool ["aaaaa"; "bbbbb"] ["bbbbb"] = Some "aaaaa"
  ∧ select_best_guess_parallel ["aaaaa"; "bbbbb"] ["bbbbb"] (World ∅ None None)
    = Some ("bbbbb", World ∅ None None)
  ∧ (∀ word_list word_list' possible_words,
       select_best_guess_parallel word_list possible_words
       = select_best_guess_parallel word_list' possible_words).
Proof.
  split; [|split].
  - unfold best_of_pool. cbn [fmap list_fmap Py.max_by Py.max_from snd].
    rewrite !entropy_of_small by (simpl; lia).
    destruct (Rlt_dec 0 0) as [H|_]; [lra | done].
  - rewrite select_best_guess_parallel_run.
    + reflexivity.
    + repeat constructor.
    + apply map_Forall_empty.
  - reflexivity.
Qed.

(** ** The entropy cache *)

Section CacheProofs.

Variable sha256_hexdigest : string → string.

Lemma is_entropy_cache_valid_run word_list w :
  is_entropy_cache_valid sha256_hexdigest word_list w
  = Some (bool_decide (stored_hash w
                       = Some (compute_wordlist_hash sha256_hexdigest word_list))
          && bool_decide (is_Some (entropy_file w)), w).
Proof. reflexivity. Qed.

Lemma compute_and_save_initial_entropy_run word_list w :
  Forall is_word word_list → consistent w →
  compute_and_save_initial_entropy sha256_hexdigest word_list w
  = Some (entropy_table word_list,
          World (feedback_cache w)
            (Some (compute_wordlist_hash sha256_hexdigest word_list))
            (Some (PickleOf (entropy_table word_list)))).
Proof.
  intros Hwl Hw. unfold compute_and_save_initial_entropy.
  by rewrite (bind_run _ _ _ _ _ (pool_map_entropies _ _ w Hwl Hwl Hw)).
Qed.

(** With a matching fingerprint the table file is unpickled without any
    check: bytes that are no pickle make [get_initial_entropy] raise. *)
Lemma get_initial_entropy_corrupt_table word_list w :
  stored_hash w = Some (compute_wordlist_hash sha256_hexdigest word_list) →
  entropy_file w = Some NotAPickle →
  get_initial_entropy sha256_hexdigest word_list w = None.
Proof.
  intros Hh He. unfold get_initial_entropy.
  rewrite (bind_run _ _ _ _ _ (is_entropy_cache_valid_run word_list w)).
  rewrite bool_decide_eq_true_2 by done.
  rewrite bool_decide_eq_true_2 by (rewrite He; by eexists).
  cbn [andb]. unfold load_initial_entropy. by rewrite He.
Qed.

Lemma get_initial_entropy_miss word_list w :
  Forall is_word word_list → consistent w →
  stored_hash w ≠ Some (compute_wordlist_hash sha256_hexdigest word_list)
  ∨ entropy_file w = None →
  get_initial_entropy sha256_hexdigest word_list w
  = Some (entropy_table word_list,
          World (feedback_cache w)
            (Some (compute_wordlist_hash sha256_hexdigest word_list))
            (Some (PickleOf (entropy_table word_list)))).
Proof.
  intros Hwl Hw Hmiss. unfold get_initial_entropy.
  rewrite (bind_run _ _ _ _ _ (is_entropy_cache_valid_run word_list w)).
  assert (bool_decide (stored_hash w
                       = Some (compute_wordlist_hash sha256_hexdigest word_list))
          && bool_decide (is_Some (entropy_file w)) = false) as ->.
  { destruct Hmiss as [Hh|He].
    - by rewrite bool_decide_eq_false_2.
    - rewrite (bool_decide_eq_false_2 (is_Some _)); [apply andb_false_r |].
      rewrite He. by intros [? ?]. }
  by apply compute_and_save_initial_entropy_run.
Qed.

End CacheProofs.

(** C6, as [wordle.py] has it: when [wordlist_hash.txt] is missing or its
    text is not the fingerprint of the pool, or when [initial_entropy.pkl]
    is missing, [get_initial_entropy] does not fail: it computes the entropy
    of every word of the pool against the pool, writes the table and the
    fingerprint, and returns the table. *)
Theorem get_initial_entropy_recomputes_on_miss sha256_hexdigest word_list w :
  Forall is_word word_list → reachable w →
  stored_hash w ≠ Some (compute_wordlist_hash sha256_hexdigest word_list)
  ∨ entropy_file w = None →
  ∃ table w',
    get_initial_entropy sha256_hexdigest word_list w = Some (table, w')
    ∧ table = entropy_table word_list
    ∧ entropy_file w' = Some (PickleOf table)
    ∧ hash_file w' = Some (compute_wordlist_hash sha256_hexdigest word_list)
    ∧ feedback_cache w' = feedback_cache w.
Proof.
  intros Hwl Hw Hmiss. eexists _, _. split.
  - apply get_initial_entropy_miss; [done | by apply reachable_consistent | done].
  - done.
Qed.

Lemma get_initial_entropy_recomputes_on_miss_witness :
  ∃ table w',
    get_initial_entropy (λ text, text) ["crane"; "sloth"]
      (World ∅ (Some "stale") (Some NotAPickle)) = Some (table, w')
    ∧ table = entropy_table ["crane"; "sloth"]
    ∧ entropy_file w' = Some (PickleOf table)
    ∧ hash_file w'
      = Some (compute_wordlist_hash (λ text, text) ["crane"; "sloth"])
    ∧ feedback_cache w' = feedback_cache (World ∅ (Some "stale") (Some NotAPickle)).
Proof.
  apply (get_initial_entropy_recomputes_on_miss (λ text, text) ["crane"; "sloth"]).
  - repeat constructor.
  - apply reachable_start.
  - left. vm_compute. discriminate.
Defined.

(** C6 as stated fails: it is not so that [get_initial_entropy] returns
    whenever the table file is corrupt. When the fingerprint on disk is the
    one of the pool, the bytes of [initial_entropy.pkl] go to [pickle.load]
    and its exception is not caught. *)
Lemma get_initial_entropy_fails_on_corrupt_table :
  ¬ (∀ sha256_hexdigest word_list w,
       Forall is_word word_list → reachable w →
       entropy_file w = Some NotAPickle →
       ∃ table w',
         get_initial_entropy sha256_hexdigest word_list w = Some (table, w')).
Proof.
  intros H.
  destruct (H (λ text, text) ["crane"]
              (World ∅ (Some "crane") (Some NotAPickle)))
    as (table & w' & E).
  - repeat constructor.
  - apply reachable_start.
  - reflexivity.
  - rewrite get_initial_entropy_corrupt_table in E; [discriminate | | ]; reflexivity.
Qed.

(** * Further properties of the code *)

(** ** The feedback functions on strings of any length *)

Lemma for_each_raises {S A} (P : S → Prop) (body : S → A → option S)
    (xs : list A) (x : A) (s : S) :
  P s → (∀ s y s', P s → body s y = Some s' → P s') →
  x ∈ xs → (∀ s, P s → body s x = None) →
  Py.for_each body xs s = None.
Proof.
  intros Hs Hkeep Hx Hnone. revert s Hs.
  induction xs as [|y xs IH]; intros s Hs; [by inversion Hx |].
  cbn [Py.for_each]. destruct (body s y) as [s'|] eqn:E; [|done].
  cbn [mbind option_bind]. apply elem_of_cons in Hx as [->|Hx].
  - rewrite (Hnone s Hs) in E. discriminate E.
  - apply IH; [done |]. by eapply Hkeep.
Qed.

Lemma top_starters_short guess target :
  String.length guess < 5 ∨ String.length target < 5 →
  TopStarters.get_feedback guess target = None.
Proof.
  intros Hshort. unfold TopStarters.get_feedback.
  rewrite (for_each_raises
             (λ st, length st.2 = String.length target)
             (TopStarters.green_step (Py.chars guess)) (Py.range 5)
             (Nat.min (String.length guess) (String.length target))).
  - done.
  - simpl. by rewrite length_fmap, length_chars.
  - intros [fb tc] y st' Hlen. unfold TopStarters.green_step. simpl in *.
    destruct (Py.chars guess !! y); [|done]. simpl.
    destruct (tc !! y); [|done]. simpl.
    destruct (decide _); intros [= <-]; simpl; [|done].
    by rewrite length_insert.
  - apply elem_of_seq. lia.
  - intros [fb tc] Hlen. unfold TopStarters.green_step. simpl in *.
    destruct (Py.chars guess !! _) as [g|] eqn:Eg; [|done]. simpl.
    apply lookup_lt_Some in Eg. rewrite length_chars in Eg.
    rewrite (lookup_ge_None_2 tc); [done |]. lia.
Qed.

Lemma top_starters_long guess target :
  5 ≤ String.length guess → 5 ≤ String.length target →
  ∃ st, TopStarters.get_feedback guess target = Some st.1
        ∧ yellow_inv (Py.chars guess) (Py.chars target) st.
Proof.
  intros Hg Ht. rewrite <- length_chars in Hg, Ht.
  destruct (passes_spec (Py.chars guess) (Py.chars target) Hg Ht)
    as (st & E & Hinv).
  exists st. split; [|done]. unfold TopStarters.get_feedback.
  destruct (Py.for_each (TopStarters.green_step _) _ _) as [s1|]; [|done].
  simpl mbind in *. change (Some s1 ≫= ?k) with (k s1) in E. cbv beta in E.
  by rewrite E.
Qed.

(** X1. Both feedback functions raise [IndexError] exactly when the guess
    or the target has fewer than five characters; longer strings are
    accepted. *)
Theorem get_feedback_raises_iff_short guess target w :
  reachable w →
  (get_feedback guess target w = None
   ↔ String.length guess < 5 ∨ String.length target < 5)
  ∧ (TopStarters.get_feedback guess target = None
     ↔ String.length guess < 5 ∨ String.length target < 5).
Proof.
  intros Hw.
  assert (TopStarters.get_feedback guess target = None
          ↔ String.length guess < 5 ∨ String.length target < 5) as Htop.
  { split; [|apply top_starters_short].
    intros E. destruct (decide (String.length guess < 5)); [by left |].
    destruct (decide (String.length target < 5)); [by right |].
    destruct (top_starters_long guess target) as (st & E' & _); [lia | lia |].
    congruence. }
  split; [|done]. rewrite <- Htop.
  rewrite (get_feedback_run guess target w (reachable_consistent w Hw)).
  rewrite compute_feedback_pack.
  by destruct (TopStarters.get_feedback guess target).
Qed.

Lemma get_feedback_raises_iff_short_witness :
  (get_feedback "abc" "abcde" (World ∅ None None) = None
   ↔ String.length "abc" < 5 ∨ String.length "abcde" < 5)
  ∧ (TopStarters.get_feedback "abc" "abcde" = None
     ↔ String.length "abc" < 5 ∨ String.length "abcde" < 5).
Proof.
  apply (get_feedback_raises_iff_short "abc" "abcde").
  apply reachable_start.
Defined.

(** ** How many positions of a letter are marked *)

Lemma contains_false_unclaimed tc g :
  Py.contains (Some g) tc = false → unclaimed tc g = 0.
Proof.
  intros H. unfold unclaimed. apply filter_length_none.
  intros x Hx ->. revert H. clear -Hx.
  induction tc as [|y tc IH]; [by inversion Hx |]. simpl.
  destruct (decide (y = Some g)) as [|Hne]; [done |].
  apply elem_of_cons in Hx as [E|Hx]; [congruence | by apply IH].
Qed.

Lemma unclaimed_insert_None tc j c :
  unclaimed (<[j:=None]> tc) c ≤ unclaimed tc c.
Proof.
  unfold unclaimed. destruct (tc !! j) as [x|] eqn:Hj.
  - destruct (decide (x = Some c)) as [->|Hne].
    + pose proof (filter_length_insert_drop (λ x, x = Some c) tc j (Some c) None
                    Hj eq_refl) as E.
      rewrite <- E by done. lia.
    + rewrite (filter_length_insert_keep (λ x, x = Some c) tc j x None);
        [lia | done | done | done].
  - rewrite list_insert_ge; [lia |]. by apply lookup_ge_None_1.
Qed.

Section Grays.

Variables guess target : list ascii.
Hypothesis guess_len : 5 ≤ length guess.
Hypothesis target_len : 5 ≤ length target.

Lemma yellow_step_gray i st :
  i < 5 → yellow_inv guess target st → gray_inv guess i st →
  ∃ st', TopStarters.yellow_step guess st i = Some st'
         ∧ yellow_inv guess target st' ∧ gray_inv guess (S i) st'.
Proof.
  intros Hi Hinv Hgray.
  destruct (yellow_step_inv guess target guess_len target_len i st Hi Hinv)
    as (st' & E & Hinv').
  exists st'. split; [done |]. split; [done |].
  destruct st as [fb tc]. unfold gray_inv in *. simpl in *.
  destruct (outcomes_lookup fb i (proj1 (proj1 Hinv)) Hi) as (d & Hd & _).
  destruct (lookup_lt_is_Some_2 guess i) as [g Hg]; [lia |].
  unfold TopStarters.yellow_step in E; simpl in E. rewrite Hd in E; simpl in E.
  destruct (decide (d = 0%Z)) as [->|Hne].
  - rewrite Hg in E; simpl in E.
    destruct (Py.contains (Some g) tc) eqn:Hc.
    + destruct (contains_true_index _ _ Hc) as (j0 & Ej & _).
      rewrite Ej in E. simpl in E. injection E as <-. simpl.
      intros j g' Hj Hfb Hg'.
      destruct (decide (j = i)) as [->|Hji].
      * rewrite list_lookup_insert_eq in Hfb by (by apply lookup_lt_Some in Hd).
        discriminate Hfb.
      * rewrite list_lookup_insert_ne in Hfb by done.
        pose proof (Hgray j g' ltac:(lia) Hfb Hg') as H0.
        pose proof (unclaimed_insert_None tc j0 g'). lia.
    + injection E as <-. simpl. intros j g' Hj Hfb Hg'.
      destruct (decide (j = i)) as [->|Hji].
      * rewrite Hg in Hg'. injection Hg' as <-.
        by apply contains_false_unclaimed.
      * apply (Hgray j g'); [lia | done | done].
  - injection E as <-. simpl. intros j g' Hj Hfb Hg'.
    destruct (decide (j = i)) as [->|Hji].
    + rewrite Hd in Hfb. injection Hfb as ->. done.
    + apply (Hgray j g'); [lia | done | done].
Qed.

(** What the two passes leave: the balance, and no gray position whose
    letter is still on offer. *)
Lemma passes_gray :
  ∃ st,
    (Py.for_each (TopStarters.green_step guess) (Py.range 5)
       (replicate 5 0%Z, Some <$> target)
     ≫= Py.for_each (TopStarters.yellow_step guess) (Py.range 5)) = Some st
    ∧ yellow_inv guess target st ∧ gray_inv guess 5 st.
Proof.
  destruct (passes_spec guess target guess_len target_len) as (st & E & Hinv).
  destruct (Py.for_each (TopStarters.green_step guess) (Py.range 5)
              (replicate 5 0%Z, Some <$> target)) as [s1|] eqn:E1; [|done].
  change (Some s1 ≫= ?k) with (k s1) in E |- *. cbv beta in E |- *.
  assert (yellow_inv guess target s1) as Hs1.
  { destruct (for_each_seq_inv (green_inv guess target)
                (TopStarters.green_step guess) 0 5
                (replicate 5 0%Z, Some <$> target)) as (s1' & E1' & H1).
    - split; [|split; [|split]]; cbn [fst snd].
      + split; cbn [fst snd].
        * split; [done |]. repeat constructor; by left.
        * intros c. unfold marks, unclaimed. rewrite filter_length_none.
          -- simpl. clear. induction target as [|x l IH]; [done |].
             rewrite fmap_cons, !filter_cons.
             destruct (decide (x = c)) as [->|Hne].
             ++ rewrite decide_True by done. simpl. by rewrite IH.
             ++ by rewrite decide_False by congruence.
          -- intros i Hi [H _]. apply elem_of_seq in Hi. apply H.
             apply lookup_replicate_2. lia.
      + intros j Hj. lia.
      + intros j _ Hj. apply lookup_replicate_2. lia.
      + done.
    - intros i st0 Hi. apply green_step_inv; [done | done | lia].
    - unfold Py.range in E1. rewrite E1 in E1'. injection E1' as <-.
      destruct H1 as (Hbal & Hdone & _). split; [done |].
      intros j Hj. apply Hdone. lia. }
  destruct (for_each_seq_inv
              (λ i st, yellow_inv guess target st ∧ gray_inv guess i st)
              (TopStarters.yellow_step guess) 0 5 s1) as (s2 & E2 & H2 & H3).
  - split; [done |]. intros j g Hj. lia.
  - intros i st0 Hi [Ha Hb].
    destruct (yellow_step_gray i st0) as (st' & E' & Ha' & Hb'); [lia | done | done |].
    by exists st'.
  - exists s2. split; [exact E2 | by split].
Qed.

End Grays.

Lemma top_starters_gray guess target :
  5 ≤ String.length guess → 5 ≤ String.length target →
  ∃ st, TopStarters.get_feedback guess target = Some st.1
        ∧ yellow_inv (Py.chars guess) (Py.chars target) st
        ∧ gray_inv (Py.chars guess) 5 st.
Proof.
  intros Hg Ht. rewrite <- length_chars in Hg, Ht.
  destruct (passes_gray (Py.chars guess) (Py.chars target) Hg Ht)
    as (st & E & Hinv & Hgray).
  exists st. split; [|done]. unfold TopStarters.get_feedback.
  destruct (Py.for_each (TopStarters.green_step _) _ _) as [s1|]; [|done].
  simpl mbind in *. change (Some s1 ≫= ?k) with (k s1) in E. cbv beta in E.
  by rewrite E.
Qed.

Lemma letter_marks_pack guess fb c :
  outcomes fb → letter_marks guess (pack fb) c = marks (Py.chars guess) fb c.
Proof.
  intros Hout. unfold letter_marks, marks. apply filter_length_ext.
  intros i Hi. apply elem_of_seq in Hi.
  destruct (outcomes_lookup fb i Hout) as (d & Hd & Hdd); [lia |].
  rewrite (field_pack fb i d Hout Hd), Hd.
  unfold GRAY, YELLOW, GREEN in *.
  split; intros [H1 H2]; (split; [|done]).
  - destruct Hdd as [->|[->| ->]]; [congruence | by left | by right].
  - destruct H1; congruence.
Qed.

Lemma filter_length_le {A} (P Q : A → Prop)
    `{∀ x, Decision (P x)} `{∀ x, Decision (Q x)} (l : list A) :
  (∀ x, P x → Q x) → length (filter P l) ≤ length (filter Q l).
Proof.
  intros Himp. induction l as [|x l IH]; [done |]. rewrite !filter_cons.
  destruct (decide (P x)) as [p|p], (decide (Q x)) as [q|q]; simpl; try lia.
  exfalso. by apply q, Himp.
Qed.

Lemma marks_min guess target fb tc c :
  yellow_inv guess target (fb, tc) → gray_inv guess 5 (fb, tc) →
  marks guess fb c
  = Nat.min (length (filter (λ i, guess !! i = Some c) (Py.range 5)))
      (length (filter (λ x, x = c) target)).
Proof.
  intros [[Hout Hbal] _] Hgray. simpl in *. specialize (Hbal c).
  assert (marks guess fb c
          ≤ length (filter (λ i, guess !! i = Some c) (Py.range 5))) as Hle.
  { unfold marks. apply filter_length_le. tauto. }
  destruct (decide (Exists (λ j, fb !! j = Some GRAY ∧ guess !! j = Some c)
                      (Py.range 5))) as [Hex|Hno].
  - apply Exists_exists in Hex as (j & Hj & Hfb & Hgj).
    apply elem_of_seq in Hj.
    pose proof (Hgray j c ltac:(lia) Hfb Hgj) as H0. simpl in H0. lia.
  - assert (marks guess fb c
            = length (filter (λ i, guess !! i = Some c) (Py.range 5))) as E.
    { unfold marks. apply filter_length_ext. intros i Hi. split; [|tauto].
      intros Hgi. split; [|done]. intros Hfb. apply Hno.
      apply Exists_exists. by exists i. }
    lia.
Qed.

Lemma guess_letters_word guess c :
  is_word guess → guess_letters guess c = occurrences c guess.
Proof.
  unfold is_word, guess_letters, occurrences. rewrite <- length_chars.
  generalize (Py.chars guess). intros l Hlen.
  do 6 (destruct l as [|? l]; simpl in Hlen; try discriminate Hlen).
  unfold Py.range. cbn [seq]. rewrite !filter_cons, !filter_nil. simpl.
  repeat (match goal with
          | |- context [decide (Some ?a = Some c)] =>
              destruct (decide (a = c)) as [->|?];
              [rewrite !(decide_True (P := Some c = Some c)) by done
              |rewrite !(decide_False (P := Some a = Some c)) by congruence]
          end);
  reflexivity.
Qed.

(** X2. For a guess and a target of at least five characters the number of
    green or yellow positions that carry a letter is the smaller of the
    number of positions of the guess with that letter and the number of its
    occurrences in the target, and every field of the pattern is gray,
    yellow or green, so that the pattern lies between 0 and 682. *)
Theorem get_feedback_marks_each_letter_min guess target w :
  5 ≤ String.length guess → 5 ≤ String.length target → reachable w →
  ∃ v w', get_feedback guess target w = Some (v, w')
    ∧ (∀ c, letter_marks guess v c
            = Nat.min (guess_letters guess c) (occurrences c target))
    ∧ (∀ c, is_word guess → guess_letters guess c = occurrences c guess)
    ∧ (∀ i, i < 5 → field v i = GRAY ∨ field v i = YELLOW ∨ field v i = GREEN)
    ∧ (0 ≤ v ≤ 682)%Z.
Proof.
  intros Hg Ht Hw.
  destruct (top_starters_gray guess target Hg Ht)
    as ([fb tc] & E & Hinv & Hgray). simpl in E.
  pose proof (get_feedback_run guess target w (reachable_consistent w Hw)) as Er.
  rewrite compute_feedback_pack, E in Er. simpl in Er.
  assert (outcomes fb) as Hout by apply Hinv.
  eexists _, _. split; [exact Er |]. split; [|split; [|split]].
  - intros c. rewrite letter_marks_pack by done.
    by apply (marks_min _ (Py.chars target) fb tc).
  - intros c. apply guess_letters_word.
  - intros i Hi. destruct (outcomes_lookup fb i Hout Hi) as (d & Hd & Hdd).
    by rewrite (field_pack fb i d Hout Hd).
  - clear -Hout. each_outcomes Hout; vm_compute; split; discriminate.
Qed.

Lemma get_feedback_marks_each_letter_min_witness :
  ∃ v w', get_feedback "aabbb" "ababa" (World ∅ None None) = Some (v, w')
    ∧ (∀ c, letter_marks "aabbb" v c
            = Nat.min (guess_letters "aabbb" c) (occurrences c "ababa"))
    ∧ (∀ c, is_word "aabbb" → guess_letters "aabbb" c = occurrences c "aabbb")
    ∧ (∀ i, i < 5 → field v i = GRAY ∨ field v i = YELLOW ∨ field v i = GREEN)
    ∧ (0 ≤ v ≤ 682)%Z.
Proof.
  apply (get_feedback_marks_each_letter_min "aabbb" "ababa").
  - simpl. lia.
  - simpl. lia.
  - apply reachable_start.
Defined.

(** ** Grouping the candidates by pattern *)

Lemma lookup_group_append q p x groups :
  lookup_key q (group_append p x groups)
  = if decide (q = p) then Some (default [] (lookup_key p groups) ++ [x])
    else lookup_key q groups.
Proof.
  induction groups as [|[p' ws] r IH]; cbn [group_append lookup_key].
  - destruct (decide (p = q)) as [->|Hne].
    + by rewrite decide_True.
    + by rewrite decide_False by congruence.
  - destruct (decide (p' = p)) as [->|Hp]; cbn [lookup_key].
    + destruct (decide (p = q)) as [->|Hq].
      * by rewrite decide_True.
      * by rewrite decide_False by congruence.
    + destruct (decide (p' = q)) as [->|Hq].
      * by rewrite decide_False by done.
      * exact IH.
Qed.

Lemma group_append_keys p x groups :
  (group_append p x groups).*1
  = if decide (p ∈ groups.*1) then groups.*1 else groups.*1 ++ [p].
Proof.
  induction groups as [|[p' ws] r IH]; cbn [group_append].
  - rewrite decide_False; [done |]. apply not_elem_of_nil.
  - rewrite !fmap_cons. cbn [fst].
    destruct (decide (p' = p)) as [->|Hp].
    + rewrite fmap_cons. cbn [fst]. rewrite decide_True; [done | by left].
    + rewrite fmap_cons, IH. cbn [fst].
      destruct (decide (p ∈ r.*1)) as [Hin|Hin].
      * rewrite decide_True; [done | by right].
      * rewrite decide_False; [done |].
        intros [E|H]%elem_of_cons; [congruence | done].
Qed.

Lemma groups_fold_keys (f : string → Z) xs groups :
  NoDup groups.*1 →
  NoDup (foldl (λ gs x, group_append (f x) x gs) groups xs).*1.
Proof.
  revert groups. induction xs as [|x xs IH]; intros groups Hnd; [done |].
  cbn [foldl]. apply IH. rewrite group_append_keys.
  destruct (decide (f x ∈ groups.*1)); [done |].
  apply NoDup_app. split; [done |]. split; [|apply NoDup_singleton].
  intros y Hy Hy'. apply list_elem_of_singleton in Hy'. by subst.
Qed.

Lemma groups_fold_lookup (f : string → Z) xs groups p :
  lookup_key p (foldl (λ gs x, group_append (f x) x gs) groups xs)
  = match lookup_key p groups with
    | Some ws => Some (ws ++ filter (λ x, f x = p) xs)
    | None => match filter (λ x, f x = p) xs with
              | [] => None
              | kept => Some kept
              end
    end.
Proof.
  revert groups. induction xs as [|x xs IH]; intros groups.
  - cbn [foldl]. rewrite filter_nil.
    destruct (lookup_key p groups); [by rewrite app_nil_r | done].
  - cbn [foldl]. rewrite IH, lookup_group_append, filter_cons.
    destruct (decide (f x = p)) as [E|E].
    + rewrite decide_True by done. rewrite E.
      destruct (lookup_key p groups) as [ws|]; simpl.
      * by rewrite <- app_assoc.
      * done.
    + rewrite decide_False by congruence.
      by destruct (lookup_key p groups).
Qed.

Lemma filter_pattern guess p xs :
  is_word guess → Forall is_word xs →
  filter (λ x, pattern guess x = p) xs
  = filter (λ x, Wordle.compute_feedback guess x = Some p) xs.
Proof.
  intros Hg Hxs. induction Hxs as [|x xs Hx _ IH]; [done |].
  rewrite !filter_cons, IH, (compute_feedback_returns guess x Hg Hx).
  destruct (decide (pattern guess x = p)) as [E|E].
  - by rewrite decide_True by congruence.
  - by rewrite decide_False by congruence.
Qed.

Lemma group_feedback_patterns_run guess possible_words w :
  is_word guess → Forall is_word possible_words → consistent w →
  ∃ w', group_feedback_patterns guess possible_words w
        = Some (groups_of guess possible_words, w') ∧ consistent w'.
Proof.
  intros Hg Hxs Hw. unfold group_feedback_patterns.
  destruct (for_each_feedback guess (λ gs x v, group_append v x gs)
              possible_words [] w Hg Hxs Hw) as (w' & E & Hc & _).
  by exists w'.
Qed.

(** X3. On five-letter words [group_feedback_patterns] returns a dictionary
    with one key for each pattern that occurs and no other: the group of a
    pattern is the list that [filter_possible_words] returns for it, and a
    pattern that no word yields has no entry. *)
Theorem group_feedback_patterns_partition guess possible_words w :
  is_word guess → Forall is_word possible_words → reachable w →
  ∃ groups w',
    group_feedback_patterns guess possible_words w = Some (groups, w')
    ∧ NoDup groups.*1
    ∧ (∀ p, lookup_key p groups
            = match filter (λ x, Wordle.compute_feedback guess x = Some p)
                      possible_words with
              | [] => None
              | kept => Some kept
              end)
    ∧ (∀ p, fst <$> filter_possible_words guess p possible_words w'
            = Some (default [] (lookup_key p groups))).
Proof.
  intros Hg Hxs Hw.
  destruct (group_feedback_patterns_run guess possible_words w Hg Hxs
              (reachable_consistent w Hw)) as (w' & E & Hw').
  exists (groups_of guess possible_words), w'. split; [done |].
  assert (∀ p, lookup_key p (groups_of guess possible_words)
               = match filter (λ x, Wordle.compute_feedback guess x = Some p)
                         possible_words with
                 | [] => None
                 | kept => Some kept
                 end) as Hlook.
  { intros p. unfold groups_of. rewrite groups_fold_lookup.
    cbn [lookup_key]. by rewrite filter_pattern. }
  split; [|split; [done |]].
  - unfold groups_of. apply groups_fold_keys. constructor.
  - intros p.
    destruct (filter_possible_words_run guess p possible_words w' Hg Hxs Hw')
      as (w2 & -> & _). simpl. f_equal. rewrite Hlook.
    by destruct (filter _ possible_words).
Qed.

Lemma group_feedback_patterns_partition_witness :
  ∃ groups w',
    group_feedback_patterns "crane" ["crane"; "sloth"; "moody"]
      (World ∅ None None) = Some (groups, w')
    ∧ NoDup groups.*1
    ∧ (∀ p, lookup_key p groups
            = match filter (λ x, Wordle.compute_feedback "crane" x = Some p)
                      ["crane"; "sloth"; "moody"] with
              | [] => None
              | kept => Some kept
              end)
    ∧ (∀ p, fst <$> filter_possible_words "crane" p
                     ["crane"; "sloth"; "moody"] w'
            = Some (default [] (lookup_key p groups))).
Proof.
  apply (group_feedback_patterns_partition "crane" ["crane"; "sloth"; "moody"]).
  - reflexivity.
  - repeat constructor.
  - apply reachable_start.
Defined.

Lemma counter_incr_group_sizes p x groups :
  counter_incr p ((λ g : Z * list string, (g.1, length g.2)) <$> groups)
  = (λ g : Z * list string, (g.1, length g.2)) <$> group_append p x groups.
Proof.
  induction groups as [|[p' ws] r IH]; [done |].
  rewrite fmap_cons. cbn [counter_incr group_append fst snd].
  destruct (decide (p' = p)).
  - rewrite fmap_cons. cbn [fst snd]. rewrite length_app. simpl.
    f_equal. f_equal. lia.
  - rewrite fmap_cons. cbn [fst snd]. by rewrite IH.
Qed.

Lemma pattern_counts_group_sizes guess possible_words :
  pattern_counts_of guess possible_words
  = (λ g : Z * list string, (g.1, length g.2)) <$> groups_of guess possible_words.
Proof.
  unfold pattern_counts_of, groups_of.
  change (@nil (Z * nat))
    with ((λ g : Z * list string, (g.1, length g.2)) <$> @nil (Z * list string)).
  generalize (@nil (Z * list string)).
  induction possible_words as [|x xs IH]; intros groups; [done |].
  cbn [foldl]. by rewrite (counter_incr_group_sizes _ x), IH.
Qed.

(** X4. The value of [calculate_entropy] is the sum of
    [-(n/N) * log2 (n/N)] over the groups of [group_feedback_patterns],
    [n] the size of a group and [N] the number of candidates, and the sizes
    of the groups add up to [N]. *)
Theorem calculate_entropy_over_groups guess possible_words w :
  is_word guess → Forall is_word possible_words → reachable w →
  ∃ e w1 groups w2,
    calculate_entropy guess possible_words w = Some (e, w1)
    ∧ group_feedback_patterns guess possible_words w = Some (groups, w2)
    ∧ e = sum_R (entropy_term (length possible_words)
                   <$> (length <$> groups.*2))
    ∧ sum_list (length <$> groups.*2) = length possible_words.
Proof.
  intros Hg Hxs Hw. pose proof (reachable_consistent w Hw) as Hc.
  destruct (calculate_entropy_run guess possible_words w Hg Hxs Hc)
    as (w1 & E1 & _).
  destruct (group_feedback_patterns_run guess possible_words w Hg Hxs Hc)
    as (w2 & E2 & _).
  exists (entropy_of guess possible_words), w1,
    (groups_of guess possible_words), w2.
  split; [done |]. split; [done |].
  assert ((pattern_counts_of guess possible_words).*2
          = length <$> (groups_of guess possible_words).*2) as Hsz.
  { rewrite pattern_counts_group_sizes, <- !list_fmap_compose. done. }
  split.
  - unfold entropy_of. by rewrite Hsz.
  - rewrite <- Hsz. apply pattern_counts_sum.
Qed.

Lemma calculate_entropy_over_groups_witness :
  ∃ e w1 groups w2,
    calculate_entropy "crane" ["crane"; "sloth"; "moody"] (World ∅ None None)
    = Some (e, w1)
    ∧ group_feedback_patterns "crane" ["crane"; "sloth"; "moody"]
        (World ∅ None None) = Some (groups, w2)
    ∧ e = sum_R (entropy_term (length ["crane"; "sloth"; "moody"])
                   <$> (length <$> groups.*2))
    ∧ sum_list (length <$> groups.*2) = length ["crane"; "sloth"; "moody"].
Proof.
  apply (calculate_entropy_over_groups "crane" ["crane"; "sloth"; "moody"]).
  - reflexivity.
  - repeat constructor.
  - apply reachable_start.
Defined.

(** ** What filtering keeps and drops *)

(** X5. A truthful answer never costs the answer: filtering with the
    pattern that [get_feedback] gives for a target keeps every occurrence of
    that target among the candidates. *)
Theorem filter_possible_words_keeps_target guess target possible_words w :
  is_word guess → is_word target → Forall is_word possible_words →
  reachable w → target ∈ possible_words →
  ∃ fb w1 kept w2,
    get_feedback guess target w = Some (fb, w1)
    ∧ filter_possible_words guess fb possible_words w1 = Some (kept, w2)
    ∧ target ∈ kept.
Proof.
  intros Hg Ht Hxs Hw Hin.
  destruct (get_feedback_returns guess target w Hg Ht Hw) as (w1 & E1 & Hw1).
  destruct (filter_possible_words_run guess (pattern guess target)
              possible_words w1 Hg Hxs (reachable_consistent w1 Hw1))
    as (w2 & E2 & _).
  eexists _, w1, _, w2. split; [exact E1 |]. split; [exact E2 |].
  apply list_elem_of_filter. split; [|done].
  by apply compute_feedback_returns.
Qed.

Lemma filter_possible_words_keeps_target_witness :
  ∃ fb w1 kept w2,
    get_feedback "crane" "sloth" (World ∅ None None) = Some (fb, w1)
    ∧ filter_possible_words "crane" fb ["crane"; "sloth"; "moody"] w1
      = Some (kept, w2)
    ∧ "sloth" ∈ kept.
Proof.
  apply (filter_possible_words_keeps_target "crane" "sloth"
           ["crane"; "sloth"; "moody"]).
  - reflexivity.
  - reflexivity.
  - repeat constructor.
  - apply reachable_start.
  - apply list_elem_of_In. simpl. tauto.
Defined.



Lemma filter_swap {A} (P Q : A → Prop)
    `{∀ x, Decision (P x)} `{∀ x, Decision (Q x)} (l : list A) :
  filter P (filter Q l) = filter Q (filter P l).
Proof.
  induction l as [|x l IH]; [done |]. rewrite !(filter_cons _ x).
  destruct (decide (Q x)) as [q|q], (decide (P x)) as [p|p];
    rewrite ?filter_cons, ?decide_True, ?decide_False by done;
    by rewrite IH.
Qed.

Lemma filter_words (P : string → Prop) `{∀ x, Decision (P x)} xs :
  Forall is_word xs → Forall is_word (filter P xs).
Proof.
  intros Hxs. apply Forall_forall. intros x [_ Hx]%list_elem_of_filter.
  by eapply Forall_forall in Hxs.
Qed.

(** X7. Two rounds of filtering give the same candidates in either order. *)
Theorem filter_possible_words_commute guess1 fb1 guess2 fb2 possible_words w :
  is_word guess1 → is_word guess2 → Forall is_word possible_words →
  reachable w →
  ∃ k1 w1 k12 w2 k2 w3 k21 w4,
    filter_possible_words guess1 fb1 possible_words w = Some (k1, w1)
    ∧ filter_possible_words guess2 fb2 k1 w1 = Some (k12, w2)
    ∧ filter_possible_words guess2 fb2 possible_words w = Some (k2, w3)
    ∧ filter_possible_words guess1 fb1 k2 w3 = Some (k21, w4)
    ∧ k12 = k21.
Proof.
  intros Hg1 Hg2 Hxs Hw. pose proof (reachable_consistent w Hw) as Hc.
  destruct (filter_possible_words_run guess1 fb1 possible_words w Hg1 Hxs Hc)
    as (w1 & E1 & Hc1 & _).
  destruct (filter_possible_words_run guess2 fb2 _ w1 Hg2
              (filter_words
                 (λ x, Wordle.compute_feedback guess1 x = Some fb1) _ Hxs) Hc1)
    as (w2 & E2 & _).
  destruct (filter_possible_words_run guess2 fb2 possible_words w Hg2 Hxs Hc)
    as (w3 & E3 & Hc3 & _).
  destruct (filter_possible_words_run guess1 fb1 _ w3 Hg1
              (filter_words
                 (λ x, Wordle.compute_feedback guess2 x = Some fb2) _ Hxs) Hc3)
    as (w4 & E4 & _).
  eexists _, w1, _, w2, _, w3, _, w4.
  split; [exact E1 |]. split; [exact E2 |]. split; [exact E3 |].
  split; [exact E4 |]. apply filter_swap.
Qed.

Lemma filter_possible_words_commute_witness :
  ∃ k1 w1 k12 w2 k2 w3 k21 w4,
    filter_possible_words "crane" 0 ["sloth"; "moody"; "light"]
      (World ∅ None None) = Some (k1, w1)
    ∧ filter_possible_words "sloth" 1 k1 w1 = Some (k12, w2)
    ∧ filter_possible_words "sloth" 1 ["sloth"; "moody"; "light"]
        (World ∅ None None) = Some (k2, w3)
    ∧ filter_possible_words "crane" 0 k2 w3 = Some (k21, w4)
    ∧ k12 = k21.
Proof.
  apply (filter_possible_words_commute "crane" 0 "sloth" 1
           ["sloth"; "moody"; "light"]).
  - reflexivity.
  - reflexivity.
  - repeat constructor.
  - apply reachable_start.
Defined.

(** ** The choice of the guess *)

(** [max] returns the first of the elements with the greatest key. *)
Lemma max_from_split {A} (key : A → R) (best : A) (xs : list A) :
  ∃ l1 l2, best :: xs = l1 ++ Py.max_from key best xs :: l2
    ∧ (∀ x, x ∈ l1 → (key x < key (Py.max_from key best xs))%R)
    ∧ (∀ x, x ∈ l2 → (key x <= key (Py.max_from key best xs))%R).
Proof.
  revert best. induction xs as [|y xs IH]; intros best.
  - exists [], []. split; [done |]. split; intros x Hx; by inversion Hx.
  - cbn [Py.max_from]. destruct (Rlt_dec (key best) (key y)) as [Hlt|Hge].
    + destruct (IH y) as (l1 & l2 & E & H1 & H2).
      exists (best :: l1), l2. split; [by rewrite E |]. split; [|done].
      intros x [->|Hx]%elem_of_cons; [|by apply H1].
      destruct l1 as [|z l1].
      * simpl in E. injection E as E _. rewrite <- E. done.
      * simpl in E. injection E as <- _.
        pose proof (H1 y ltac:(by left)). lra.
    + destruct (IH best) as (l1 & l2 & E & H1 & H2).
      destruct l1 as [|z l1].
      * simpl in E. injection E as E El2. exists [], (y :: xs).
        split; [by rewrite <- E |]. split; [intros x Hx; by inversion Hx |].
        intros x [->|Hx]%elem_of_cons.
        -- rewrite <- E. lra.
        -- apply H2. by rewrite <- El2.
      * simpl in E. injection E as <- El2.
        exists (best :: y :: l1), l2.
        split; [simpl; by rewrite <- El2 |]. split; [|done].
        intros x [->|[->|Hx]%elem_of_cons]%elem_of_cons.
        -- apply H1. by left.
        -- pose proof (H1 best ltac:(by left)). lra.
        -- apply H1. by right.
Qed.




(** ** The errors of [parse_feedback] and the retry loop *)

Lemma token_outcome_is_Some token :
  is_Some (token_outcome token) ↔ is_Some (dict_get token feedback_map).
Proof.
  rewrite <- token_outcome_feedback_map.
  destruct (dict_get token feedback_map); simpl; split; intros [? ?]; by eauto.
Qed.

Lemma translate_tokens_inl valid bad rest acc :
  Forall (λ t, is_Some (token_outcome t)) valid → token_outcome bad = None →
  translate_tokens (valid ++ bad :: rest) acc = inl bad.
Proof.
  intros Hvalid Hbad. revert acc.
  induction Hvalid as [|t ts Ht _ IH]; intros acc.
  - cbn [app translate_tokens].
    rewrite <- token_outcome_feedback_map in Hbad.
    by destruct (dict_get bad feedback_map).
  - rewrite <- app_comm_cons. cbn [translate_tokens].
    apply token_outcome_is_Some in Ht as [c Hc]. rewrite Hc. apply IH.
Qed.

Lemma translate_tokens_valid tokens acc :
  Forall (λ t, is_Some (token_outcome t)) tokens →
  ∃ cs, translate_tokens tokens acc = inr (acc ++ cs)
        ∧ length cs = length tokens.
Proof.
  intros Hvalid. revert acc.
  induction Hvalid as [|t ts Ht _ IH]; intros acc.
  - exists []. by rewrite app_nil_r.
  - cbn [translate_tokens].
    apply token_outcome_is_Some in Ht as [c Hc]. rewrite Hc.
    destruct (IH (acc ++ [c])) as (cs & -> & Hlen).
    exists (c :: cs). rewrite <- app_assoc. split; [done |]. simpl. by rewrite Hlen.
Qed.

(** X9. The first token that is not in the vocabulary is the one that the
    [ValueError] names, whatever the number of tokens; when all tokens are in
    the vocabulary and they are not five, the error is the one on the
    count. *)
Theorem parse_feedback_error_messages feedback_str :
  (∀ valid bad rest,
     lowered_tokens feedback_str = valid ++ bad :: rest →
     Forall (λ t, is_Some (token_outcome t)) valid →
     token_outcome bad = None →
     parse_feedback feedback_str
     = Raise (ValueError
         ("Invalid feedback token: '" +:+ bad +:+
          "'. Use 'g' for green, 'y' for yellow, 'b' or 'gray' for gray.")))
  ∧ (Forall (λ t, is_Some (token_outcome t)) (lowered_tokens feedback_str) →
     length (lowered_tokens feedback_str) ≠ 5 →
     parse_feedback feedback_str
     = Raise (ValueError "Feedback must consist of exactly 5 tokens.")).
Proof.
  split.
  - intros valid bad rest E Hvalid Hbad. unfold parse_feedback.
    rewrite feedback_tokens_lowered, E.
    by rewrite (translate_tokens_inl valid bad rest [] Hvalid Hbad).
  - intros Hvalid Hlen. unfold parse_feedback.
    rewrite feedback_tokens_lowered.
    destruct (translate_tokens_valid _ [] Hvalid) as (cs & -> & Hcs).
    cbn [app]. rewrite decide_True by lia. done.
Qed.

Lemma lower_replace_comma s :
  Py.lower (Py.replace_char "," " " s) = Py.replace_char "," " " (Py.lower s).
Proof.
  unfold Py.lower, Py.replace_char. rewrite <- !list_fmap_compose.
  apply list_fmap_ext. intros _ c _. simpl.
  destruct c as [[] [] [] [] [] [] [] []]; reflexivity.
Qed.

Lemma split_comma_space tok s :
  Py.split_from (λ c, Py.isspace c || bool_decide (c = ","%char)) tok
    (Py.replace_char "," " " s)
  = Py.split_from (λ c, Py.isspace c || bool_decide (c = ","%char)) tok s.
Proof.
  revert tok. induction s as [|c s IH]; intros tok; [done |].
  unfold Py.replace_char in *. rewrite fmap_cons. cbn [Py.split_from].
  destruct (decide (c = ","%char)) as [->|Hne].
  - simpl. destruct tok; by rewrite IH.
  - destruct (Py.isspace c || bool_decide (c = ","%char));
      [destruct tok|]; by rewrite IH.
Qed.

(** X10. [parse_feedback] reads the lowercased tokens only: the case of the
    letters, whitespace around the input and commas in the place of spaces
    make no difference to what it returns or raises. *)
Theorem parse_feedback_ignores_case_and_separators feedback_str :
  parse_feedback (string_of_list_ascii (Py.lower (Py.chars feedback_str)))
  = parse_feedback feedback_str
  ∧ parse_feedback (string_of_list_ascii (Py.strip (Py.chars feedback_str)))
    = parse_feedback feedback_str
  ∧ parse_feedback
      (string_of_list_ascii (Py.replace_char "," " " (Py.chars feedback_str)))
    = parse_feedback feedback_str
  ∧ (∀ other, lowered_tokens feedback_str = lowered_tokens other →
              parse_feedback feedback_str = parse_feedback other).
Proof.
  assert (∀ a b, lowered_tokens a = lowered_tokens b →
                 parse_feedback a = parse_feedback b) as Htok.
  { intros a b E. unfold parse_feedback.
    by rewrite !feedback_tokens_lowered, E. }
  split; [|split; [|split]].
  - apply Htok. unfold lowered_tokens, Py.chars.
    by rewrite list_ascii_of_string_of_list_ascii, lower_idem.
  - apply Htok. unfold lowered_tokens, Py.chars.
    rewrite list_ascii_of_string_of_list_ascii, <- strip_lower.
    apply split_from_strip. intros c ->. done.
  - apply Htok. unfold lowered_tokens, Py.chars.
    rewrite list_ascii_of_string_of_list_ascii, lower_replace_comma.
    apply split_comma_space.
  - apply Htok.
Qed.

(** X11. The prompt loop of [wordle_bot] returns the pattern of the first
    line that [parse_feedback] accepts and leaves the lines after it unread;
    the lines before it were all rejected with a [ValueError]. It ends in
    [EOFError] exactly when every line is rejected. *)
Theorem read_feedback_first_accepted inputs :
  (∀ v rest,
     read_feedback inputs = Some (v, rest) ↔
     ∃ bad good,
       inputs = bad ++ good :: rest
       ∧ Forall (λ l, ∃ msg, parse_feedback l = Raise (ValueError msg)) bad
       ∧ parse_feedback good = Ok v)
  ∧ (read_feedback inputs = None ↔
     Forall (λ l, ∃ msg, parse_feedback l = Raise (ValueError msg)) inputs).
Proof.
  induction inputs as [|line inputs [IH1 IH2]].
  - split.
    + intros v rest. split; [done |]. intros (bad & good & E & _).
      by destruct bad.
    + split; [constructor | done].
  - cbn [read_feedback]. rewrite parse_feedback_prepared.
    destruct (parse_feedback_raises line) as [[v0 E0]|[msg E0]]; rewrite E0.
    + split.
      * intros v rest. split.
        -- intros [= <- <-]. exists [], line. by repeat split.
        -- intros (bad & good & E & Hbad & Hgood). destruct bad as [|b bad].
           ++ simpl in E. injection E as <- <-. congruence.
           ++ simpl in E. injection E as <- _.
              apply Forall_cons in Hbad as [[msg Hb] _]. congruence.
      * split; [done |]. intros [[msg Hb] _]%Forall_cons. congruence.
    + split.
      * intros v rest. rewrite IH1. split.
        -- intros (bad & good & -> & Hbad & Hgood).
           exists (line :: bad), good. split; [done |].
           split; [constructor; eauto | done].
        -- intros (bad & good & E & Hbad & Hgood). destruct bad as [|b bad].
           ++ simpl in E. injection E as <- _. congruence.
           ++ simpl in E. injection E as <- ->.
              apply Forall_cons in Hbad as [_ Hbad]. by exists bad, good.
      * rewrite IH2. split.
        -- intros H. constructor; eauto.
        -- by intros [_ H]%Forall_cons.
Qed.

(** ** The entropy table and its cache *)

Lemma dict_get_set {V} k k' (v : V) d :
  dict_get k' (dict_set k v d)
  = if decide (k = k') then Some v else dict_get k' d.
Proof.
  induction d as [|[k0 v0] r IH]; cbn [dict_set dict_get].
  - by destruct (decide (k = k')).
  - destruct (decide (k0 = k)) as [->|Hk]; cbn [dict_get].
    + by destruct (decide (k = k')).
    + destruct (decide (k0 = k')) as [->|Hk'].
      * by rewrite decide_False by congruence.
      * exact IH.
Qed.

Lemma dict_set_keys {V} k (v : V) d :
  (dict_set k v d).*1 = if decide (k ∈ d.*1) then d.*1 else d.*1 ++ [k].
Proof.
  induction d as [|[k0 v0] r IH]; cbn [dict_set].
  - rewrite decide_False; [done |]. apply not_elem_of_nil.
  - rewrite !fmap_cons. cbn [fst].
    destruct (decide (k0 = k)) as [->|Hk].
    + rewrite fmap_cons. cbn [fst]. rewrite decide_True; [done | by left].
    + rewrite fmap_cons, IH. cbn [fst].
      destruct (decide (k ∈ r.*1)) as [Hin|Hin].
      * rewrite decide_True; [done | by right].
      * rewrite decide_False; [done |].
        intros [E|H]%elem_of_cons; [congruence | done].
Qed.

Lemma table_fold_get (e : string → R) guesses d g :
  dict_get g (foldl (λ d (r : string * R), dict_set r.1 r.2 d) d
                ((λ g, (g, e g)) <$> guesses))
  = if decide (g ∈ guesses) then Some (e g) else dict_get g d.
Proof.
  revert d. induction guesses as [|x xs IH]; intros d.
  - rewrite decide_False; [done |]. apply not_elem_of_nil.
  - rewrite fmap_cons. cbn [foldl fst snd]. rewrite IH, dict_get_set.
    destruct (decide (g ∈ xs)) as [Hin|Hin].
    + rewrite decide_True; [done | by right].
    + destruct (decide (x = g)) as [->|Hne].
      * rewrite decide_True; [done | by left].
      * rewrite decide_False; [done |].
        intros [E|H]%elem_of_cons; [congruence | done].
Qed.

Lemma table_fold_keys (e : string → R) guesses d :
  NoDup d.*1 →
  NoDup (foldl (λ d (r : string * R), dict_set r.1 r.2 d) d
           ((λ g, (g, e g)) <$> guesses)).*1.
Proof.
  revert d. induction guesses as [|x xs IH]; intros d Hnd; [done |].
  rewrite fmap_cons. cbn [foldl fst snd]. apply IH. rewrite dict_set_keys.
  destruct (decide (x ∈ d.*1)); [done |].
  apply NoDup_app. split; [done |]. split; [|apply NoDup_singleton].
  intros y Hy Hy'. apply list_elem_of_singleton in Hy'. by subst.
Qed.

(** X12. [compute_and_save_initial_entropy] returns, and pickles, a table
    with exactly one entry for each distinct word of the list: the entry of
    a word is the value of [calculate_entropy] for it against the whole
    list. The fingerprint written is the one of the list and the caller's
    memo table is not changed. *)
Theorem compute_and_save_initial_entropy_table sha256_hexdigest word_list w :
  Forall is_word word_list → reachable w →
  ∃ table w',
    compute_and_save_initial_entropy sha256_hexdigest word_list w
    = Some (table, w')
    ∧ NoDup table.*1
    ∧ (∀ g, g ∈ word_list →
         fst <$> calculate_entropy g word_list w = dict_get g table
         ∧ is_Some (dict_get g table))
    ∧ (∀ g, g ∉ word_list → dict_get g table = None)
    ∧ entropy_file w' = Some (PickleOf table)
    ∧ hash_file w' = Some (compute_wordlist_hash sha256_hexdigest word_list)
    ∧ feedback_cache w' = feedback_cache w.
Proof.
  intros Hwl Hw. pose proof (reachable_consistent w Hw) as Hc.
  eexists _, _. split.
  { by apply compute_and_save_initial_entropy_run. }
  unfold entropy_table. split; [|split; [|split; [|done]]].
  - apply table_fold_keys. constructor.
  - intros g Hg. rewrite table_fold_get, decide_True by done.
    destruct (calculate_entropy_run g word_list w) as (w1 & -> & _);
      [by eapply Forall_forall in Hwl | done | done |]. by split.
  - intros g Hg. by rewrite table_fold_get, decide_False.
Qed.

Lemma compute_and_save_initial_entropy_table_witness :
  ∃ table w',
    compute_and_save_initial_entropy (λ text, text) ["crane"; "sloth"]
      (World ∅ None None) = Some (table, w')
    ∧ NoDup table.*1
    ∧ (∀ g, g ∈ ["crane"; "sloth"] →
         fst <$> calculate_entropy g ["crane"; "sloth"] (World ∅ None None)
         = dict_get g table
         ∧ is_Some (dict_get g table))
    ∧ (∀ g, g ∉ ["crane"; "sloth"] → dict_get g table = None)
    ∧ entropy_file w' = Some (PickleOf table)
    ∧ hash_file w'
      = Some (compute_wordlist_hash (λ text, text) ["crane"; "sloth"])
    ∧ feedback_cache w' = feedback_cache (World ∅ None None).
Proof.
  apply (compute_and_save_initial_entropy_table (λ text, text)
           ["crane"; "sloth"]).
  - repeat constructor.
  - apply reachable_start.
Defined.

Lemma get_initial_entropy_hit sha256_hexdigest word_list w d :
  stored_hash w = Some (compute_wordlist_hash sha256_hexdigest word_list) →
  entropy_file w = Some (PickleOf d) →
  get_initial_entropy sha256_hexdigest word_list w = Some (d, w).
Proof.
  intros Hh He. unfold get_initial_entropy.
  rewrite (bind_run _ _ _ _ _
             (is_entropy_cache_valid_run sha256_hexdigest word_list w)).
  rewrite bool_decide_eq_true_2 by done.
  rewrite bool_decide_eq_true_2 by (rewrite He; by eexists).
  cbn [andb]. unfold load_initial_entropy. by rewrite He.
Qed.

(** X13. When the fingerprint on disk is the one of the word list and the
    table file holds a pickled dictionary, [get_initial_entropy] returns
    that dictionary as it is, whatever its entries, computes nothing and
    writes nothing. *)
Theorem get_initial_entropy_returns_stored sha256_hexdigest word_list w d :
  stored_hash w = Some (compute_wordlist_hash sha256_hexdigest word_list) →
  entropy_file w = Some (PickleOf d) →
  get_initial_entropy sha256_hexdigest word_list w = Some (d, w).
Proof. apply get_initial_entropy_hit. Qed.

Lemma get_initial_entropy_returns_stored_witness :
  get_initial_entropy (λ text, text) ["crane"; "sloth"]
    (World ∅ (Some "cranesloth") (Some (PickleOf [("zzzzz", 1%R)])))
  = Some ([("zzzzz", 1%R)],
          World ∅ (Some "cranesloth") (Some (PickleOf [("zzzzz", 1%R)]))).
Proof.
  apply (get_initial_entropy_returns_stored (λ text, text) ["crane"; "sloth"]).
  - reflexivity.
  - reflexivity.
Defined.

(** X14. A second call of [get_initial_entropy] with the same list returns
    the table of the first and changes nothing, provided the digest text has
    no whitespace at its ends (a hexadecimal digest has none): what the
    first call wrote, or found, is a valid cache for the second. *)
Theorem get_initial_entropy_twice sha256_hexdigest word_list w :
  Forall is_word word_list → reachable w →
  strip_line (compute_wordlist_hash sha256_hexdigest word_list)
  = compute_wordlist_hash sha256_hexdigest word_list →
  match get_initial_entropy sha256_hexdigest word_list w with
  | Some (table, w1) =>
      get_initial_entropy sha256_hexdigest word_list w1 = Some (table, w1)
  | None =>
      stored_hash w = Some (compute_wordlist_hash sha256_hexdigest word_list)
      ∧ entropy_file w = Some NotAPickle
  end.
Proof.
  intros Hwl Hw Hstable. pose proof (reachable_consistent w Hw) as Hc.
  destruct (decide (stored_hash w
                    = Some (compute_wordlist_hash sha256_hexdigest word_list)))
    as [Hh|Hh].
  - destruct (entropy_file w) as [[d|]|] eqn:He.
    + rewrite (get_initial_entropy_hit _ _ w d Hh He).
      by apply get_initial_entropy_hit.
    + by rewrite (get_initial_entropy_corrupt_table _ _ w Hh He).
    + rewrite (get_initial_entropy_miss _ _ w Hwl Hc) by (by right).
      apply get_initial_entropy_hit; [|done].
      unfold stored_hash. simpl. f_equal. exact Hstable.
  - rewrite (get_initial_entropy_miss _ _ w Hwl Hc) by (by left).
    apply get_initial_entropy_hit; [|done].
    unfold stored_hash. simpl. f_equal. exact Hstable.
Qed.

Lemma get_initial_entropy_twice_witness :
  match get_initial_entropy (λ text, text) ["crane"; "sloth"]
          (World ∅ (Some "cranesloth") (Some (PickleOf [("zzzzz", 1%R)]))) with
  | Some (table, w1) =>
      get_initial_entropy (λ text, text) ["crane"; "sloth"] w1
      = Some (table, w1)
  | None =>
      stored_hash (World ∅ (Some "cranesloth") (Some (PickleOf [("zzzzz", 1%R)])))
      = Some (compute_wordlist_hash (λ text, text) ["crane"; "sloth"])
      ∧ entropy_file
          (World ∅ (Some "cranesloth") (Some (PickleOf [("zzzzz", 1%R)])))
        = Some NotAPickle
  end.
Proof.
  apply (get_initial_entropy_twice (λ text, text) ["crane"; "sloth"]).
  - repeat constructor.
  - apply reachable_start.
  - reflexivity.
Defined.

(** ** The guesses of a session *)

Lemma filter_possible_words_sub guess feedback possible_words w kept w' :
  filter_possible_words guess feedback possible_words w = Some (kept, w') →
  kept ⊆ possible_words.
Proof.
  unfold filter_possible_words. intros E.
  assert (∀ xs acc w0 r w1,
            for_each_m
              (λ filtered_words word,
                 fb <~ get_feedback guess word ;;
                 ret (if decide (fb = feedback) then filtered_words ++ [word]
                      else filtered_words)) xs acc w0 = Some (r, w1) →
            ∀ x, x ∈ r → x ∈ acc ∨ x ∈ xs) as Hloop.
  { induction xs as [|y xs IH]; intros acc w0 r w1 Er x Hx.
    - injection Er as <- _. by left.
    - cbn [for_each_m] in Er.
      apply bind_inv in Er as (acc' & w2 & Ebody & Er).
      apply bind_inv in Ebody as (fb & w3 & _ & Eret).
      injection Eret as <- <-.
      destruct (IH _ _ _ _ Er x Hx) as [Hacc|Hxs]; [|right; by right].
      destruct (decide (fb = feedback)); [|by left].
      apply elem_of_app in Hacc as [Hacc|Hy]; [by left |].
      apply list_elem_of_singleton in Hy as ->. right. by left. }
  intros x Hx. destruct (Hloop _ _ _ _ _ E x Hx) as [H|H]; [|done].
  by inversion H.
Qed.

Lemma max_by_elem {A} (key : A → R) (xs : list A) best :
  Py.max_by key xs = Some best → best ∈ xs.
Proof.
  destruct xs as [|x xs]; [done |]. intros [= <-].
  destruct (max_from_split key x xs) as (l1 & l2 & -> & _).
  apply elem_of_app. right. by left.
Qed.

Lemma select_best_guess_parallel_elem word_list possible_words w best w' :
  select_best_guess_parallel word_list possible_words w = Some (best, w') →
  best ∈ possible_words ∧ w' = w.
Proof.
  unfold select_best_guess_parallel. intros E.
  apply bind_inv in E as (results & w1 & Epool & E).
  apply bind_inv in E as (b & w2 & Emax & Eret).
  apply lift_inv in Emax as (b' & Emax & [= <- <-]).
  injection Eret as <- <-.
  unfold pool_map in Epool.
  destruct (for_each_m _ _ _ w) as [[rs w3]|] eqn:Eloop; [|done].
  injection Epool as <- <-. split; [|done].
  assert (∀ (gs : list string) acc w0 r w4,
            for_each_m
              (λ acc a, b <~ calculate_entropy_wrapper a ;; ret (acc ++ [b]))
              ((λ guess, (guess, possible_words)) <$> gs) acc w0
            = Some (r, w4) →
            r.*1 = acc.*1 ++ gs) as Hloop.
  { induction gs as [|g gs IH]; intros acc w0 r w4 Er.
    - injection Er as <- _. by rewrite app_nil_r.
    - rewrite fmap_cons in Er. cbn [for_each_m] in Er.
      apply bind_inv in Er as (acc' & w5 & Ebody & Er).
      apply bind_inv in Ebody as ([g' e] & w6 & Ewrap & Eret).
      injection Eret as <- <-.
      unfold calculate_entropy_wrapper in Ewrap.
      apply bind_inv in Ewrap as (e' & w7 & _ & Eret). simpl in Eret.
      injection Eret as <- <- <-.
      rewrite (IH _ _ _ _ Er), fmap_app. simpl. by rewrite <- app_assoc. }
  apply Hloop in Eloop. simpl in Eloop. rewrite <- Eloop.
  apply list_elem_of_fmap_2. by eapply max_by_elem.
Qed.

(** What a run of [rounds] adds to the guesses. *)
Lemma rounds_guesses word_list initial_entropy attempts possible_words
    inputs guesses w o gs w' :
  rounds word_list initial_entropy attempts possible_words inputs guesses w
  = Some ((o, gs), w') →
  ∃ new, gs = guesses ++ new
    ∧ length new ≤ length attempts
    ∧ (o = OutOfAttempts → length new = length attempts)
    ∧ (o = Solved → new ≠ [])
    ∧ Forall (λ g, g ∈ initial_entropy.*1 ∨ g ∈ possible_words) new.
Proof.
  revert possible_words inputs guesses w.
  induction attempts as [|attempt later IH];
    intros possible_words inputs guesses w E.
  - injection E as <- <- _. exists []. rewrite app_nil_r.
    repeat split; [done | done | constructor].
  - destruct possible_words as [|word others].
    + injection E as <- <- _. exists []. rewrite app_nil_r.
      repeat split; [simpl; lia | done | done | constructor].
    + cbn [rounds] in E. apply bind_inv in E as (guess & w1 & Eguess & E).
      assert (guess ∈ initial_entropy.*1 ∨ guess ∈ word :: others) as Hguess.
      { destruct (decide (attempt = 0)).
        - left. apply bind_inv in Eguess as (b & w2 & Eb & Eret).
          apply lift_inv in Eb as (b' & Eb & [= <- <-]).
          injection Eret as <- _.
          apply list_elem_of_fmap_2. by eapply max_by_elem.
        - right. by apply select_best_guess_parallel_elem in Eguess as [? _]. }
      apply bind_inv in E as (fr & w2 & Hread & E).
      apply lift_inv in Hread as ([fb rest] & Hread & [= -> ->]). simpl in E.
      destruct (decide (fb = 682%Z)) as [->|Hne].
      * injection E as <- <- _. exists [guess].
        repeat split; [simpl; lia | done | done | by constructor].
      * apply bind_inv in E as (pw' & w3 & Efilter & E).
        apply IH in E as (new & -> & Hlen & Hout & Hsol & Hall).
        exists (guess :: new). rewrite <- app_assoc.
        repeat split; [simpl; lia | | done |].
        -- intros Ho. simpl. by rewrite Hout.
        -- constructor; [done |]. eapply Forall_impl; [exact Hall |].
           intros g [Hg|Hg]; [by left | right].
           by apply (filter_possible_words_sub _ _ _ _ _ _ Efilter).
Qed.

(** X15. A session makes at most six guesses: [wordle_bot] ends without a
    solution only after its sixth guess, ends as solved only after at least
    one, and every guess is a key of the entropy table or a word of the word
    list. *)
Theorem wordle_bot_at_most_six_guesses sha256_hexdigest word_list inputs w :
  match wordle_bot sha256_hexdigest word_list inputs w with
  | Some ((o, gs), _) =>
      length gs ≤ 6
      ∧ (o = OutOfAttempts → length gs = 6)
      ∧ (o = Solved → gs ≠ [])
      ∧ ∃ table w1,
          get_initial_entropy sha256_hexdigest word_list w = Some (table, w1)
          ∧ Forall (λ g, g ∈ table.*1 ∨ g ∈ word_list) gs
  | None => True
  end.
Proof.
  destruct (wordle_bot sha256_hexdigest word_list inputs w)
    as [[[o gs] w']|] eqn:E; [|done].
  unfold wordle_bot in E. apply bind_inv in E as (table & w1 & Etable & E).
  apply rounds_guesses in E as (new & -> & Hlen & Hout & Hsol & Hall).
  simpl in *. repeat split; [done | done | done |]. by exists table, w1.
Qed.

Lemma filter_possible_words_guess_gone guess feedback possible_words w :
  is_word guess → Forall is_word possible_words → consistent w →
  feedback ≠ 682%Z →
  ∃ kept w',
    filter_possible_words guess feedback possible_words w = Some (kept, w')
    ∧ consistent w' ∧ Forall is_word kept
    ∧ (guess ∉ kept) ∧ (kept ⊆ possible_words).
Proof.
  intros Hg Hxs Hw Hfb.
  destruct (filter_possible_words_run guess feedback possible_words w Hg Hxs Hw)
    as (w' & E & Hw' & _).
  eexists _, w'. split; [exact E |]. split; [done |].
  split; [by apply filter_words |]. split.
  - intros [H _]%list_elem_of_filter.
    rewrite (compute_feedback_returns guess guess Hg Hg), pattern_self in H
      by done.
    unfold ALL_GREEN in H. congruence.
  - intros x [_ Hx]%list_elem_of_filter. done.
Qed.

(** From the second attempt on every guess is a candidate, and no candidate
    has been guessed before. *)
Lemma rounds_later_distinct word_list initial_entropy attempts possible_words
    inputs guesses w o gs w' :
  0 ∉ attempts → Forall is_word possible_words → consistent w →
  NoDup guesses → (∀ g, g ∈ guesses → g ∉ possible_words) →
  rounds word_list initial_entropy attempts possible_words inputs guesses w
  = Some ((o, gs), w') →
  NoDup gs.
Proof.
  revert possible_words inputs guesses w.
  induction attempts as [|attempt later IH];
    intros possible_words inputs guesses w Hzero Hxs Hw Hnd Hfresh E.
  - by injection E as _ <- _.
  - destruct possible_words as [|word others]; [by injection E as _ <- _ |].
    apply not_elem_of_cons in Hzero as [Hattempt Hlater].
    cbn [rounds] in E. rewrite decide_False in E by done.
    apply bind_inv in E as (guess & w1 & Eguess & E).
    apply select_best_guess_parallel_elem in Eguess as [Hguess ->].
    assert (NoDup (guesses ++ [guess])) as Hnd'.
    { apply NoDup_app. split; [done |]. split; [|apply NoDup_singleton].
      intros g Hg Hg'. apply list_elem_of_singleton in Hg' as ->.
      by apply (Hfresh guess). }
    apply bind_inv in E as (fr & w2 & Hread & E).
    apply lift_inv in Hread as ([fb rest] & Hread & [= -> ->]). simpl in E.
    destruct (decide (fb = 682%Z)) as [->|Hne]; [by injection E as _ <- _ |].
    assert (is_word guess) as Hgw by (by eapply Forall_forall in Hxs).
    destruct (filter_possible_words_guess_gone guess fb (word :: others) w
                Hgw Hxs Hw Hne) as (kept & w3 & Ef & Hw3 & Hkept & Hgone & Hsub).
    rewrite (bind_run _ _ _ _ _ Ef) in E.
    apply (IH kept rest (guesses ++ [guess]) w3); try done.
    intros g [Hg|Hg]%elem_of_app Hin.
    + apply (Hfresh g Hg). by apply Hsub.
    + apply list_elem_of_singleton in Hg as ->. done.
Qed.

(** X16. A session never offers the same guess twice, when the candidates
    and the keys of the entropy table are five-letter words. *)
Theorem wordle_bot_never_repeats_a_guess word_list initial_entropy
    possible_words inputs w :
  Forall is_word possible_words → Forall is_word initial_entropy.*1 →
  reachable w →
  match rounds word_list initial_entropy (Py.range 6) possible_words inputs
          [] w with
  | Some ((_, gs), _) => NoDup gs
  | None => True
  end.
Proof.
  intros Hxs Htable Hw. pose proof (reachable_consistent w Hw) as Hc.
  destruct (rounds _ _ _ _ _ _ _) as [[[o gs] w']|] eqn:E; [|done].
  unfold Py.range in E. change (seq 0 6) with (0 :: seq 1 5) in E.
  destruct possible_words as [|word others];
    [injection E as _ <- _; constructor |].
  cbn [rounds] in E. rewrite decide_True in E by done.
  apply bind_inv in E as (guess & w1 & Eguess & E).
  apply bind_inv in Eguess as (b & w0 & Eb & Eret).
  apply lift_inv in Eb as (b' & Eb & [= -> ->]). injection Eret as <- <-.
  assert (is_word b'.1) as Hgw.
  { apply max_by_elem in Eb. eapply Forall_forall in Htable; [exact Htable |].
    by apply list_elem_of_fmap_2. }
  apply bind_inv in E as (fr & w2 & Hread & E).
  apply lift_inv in Hread as ([fb rest] & Hread & [= -> ->]).
  cbn [fst snd] in E.
  destruct (decide (fb = 682%Z)) as [->|Hne].
  { injection E as _ <- _. apply NoDup_singleton. }
  destruct (filter_possible_words_guess_gone b'.1 fb (word :: others) w
              Hgw Hxs Hc Hne) as (kept & w3 & Ef & Hw3 & Hkept & Hgone & Hsub).
  rewrite (bind_run _ _ _ _ _ Ef) in E.
  apply (rounds_later_distinct word_list initial_entropy (seq 1 5) kept rest
           ([] ++ [b'.1]) w3 o gs w'); try done.
  - intros H. apply elem_of_seq in H. lia.
  - apply NoDup_singleton.
  - intros g Hg. apply list_elem_of_singleton in Hg as ->. done.
Qed.

Lemma wordle_bot_never_repeats_a_guess_witness :
  match rounds ["crane"; "sloth"] [("crane", 0%R)] (Py.range 6)
          ["crane"; "sloth"] ["b b b b b"; "g g g g g"] []
          (World ∅ None None) with
  | Some ((_, gs), _) => NoDup gs
  | None => True
  end.
Proof.
  apply (wordle_bot_never_repeats_a_guess ["crane"; "sloth"] [("crane", 0%R)]
           ["crane"; "sloth"] ["b b b b b"; "g g g g g"]).
  - repeat constructor.
  - repeat constructor.
  - apply reachable_start.
Defined.

(** ** The entropy and the ranking of [top_starters.py] *)

Lemma pack_inj fb1 fb2 :
  outcomes fb1 → outcomes fb2 → pack fb1 = pack fb2 → fb1 = fb2.
Proof.
  intros H1 H2 E. apply list_eq. intros i.
  destruct (decide (i < 5)) as [Hi|Hi].
  - destruct (outcomes_lookup fb1 i H1 Hi) as (d1 & Hd1 & _).
    destruct (outcomes_lookup fb2 i H2 Hi) as (d2 & Hd2 & _).
    rewrite Hd1, Hd2. f_equal.
    by rewrite <- (field_pack fb1 i d1 H1 Hd1), <- (field_pack fb2 i d2 H2 Hd2), E.
  - destruct H1 as [L1 _], H2 as [L2 _].
    rewrite !lookup_ge_None_2; [done | lia | lia].
Qed.

Lemma count_key_pack fb counts :
  outcomes fb → Forall outcomes counts.*1 →
  (λ c : list Z * nat, (pack c.1, c.2)) <$> Starters.count_key fb counts
  = counter_incr (pack fb) ((λ c : list Z * nat, (pack c.1, c.2)) <$> counts)
  ∧ Forall outcomes (Starters.count_key fb counts).*1.
Proof.
  intros Hfb. induction counts as [|[k n] r IH]; intros Hall.
  - split; [done |]. cbn. constructor; [done | constructor].
  - rewrite fmap_cons in Hall. apply Forall_cons in Hall as [Hk Hr].
    simpl in Hk. destruct (IH Hr) as [IH1 IH2].
    cbn [Starters.count_key]. rewrite !fmap_cons.
    cbn [counter_incr fst snd].
    destruct (decide (k = fb)) as [->|Hne].
    + rewrite decide_True by done. split; [done |].
      rewrite fmap_cons. by constructor.
    + rewrite decide_False by (intros E; by apply Hne, pack_inj).
      rewrite !fmap_cons. cbn [fst snd]. split; [by rewrite IH1 |].
      by constructor.
Qed.

Lemma starters_count_loop guess possible_words counts :
  is_word guess → Forall is_word possible_words →
  Forall outcomes counts.*1 →
  ∃ counts',
    Py.for_each
      (λ counts word,
         fb ← TopStarters.get_feedback guess word;
         Some (Starters.count_key fb counts)) possible_words counts
    = Some counts'
    ∧ (λ c : list Z * nat, (pack c.1, c.2)) <$> counts'
      = foldl (λ cs word, counter_incr (pattern guess word) cs)
          ((λ c : list Z * nat, (pack c.1, c.2)) <$> counts) possible_words.
Proof.
  intros Hg Hxs. revert counts.
  induction Hxs as [|x xs Hx _ IH]; intros counts Hall.
  - by exists counts.
  - cbn [Py.for_each foldl].
    destruct (pattern_tuple guess x Hg Hx) as (fb & -> & -> & Hout & _).
    cbn [mbind option_bind].
    destruct (count_key_pack fb counts Hout Hall) as [E1 E2].
    destruct (IH _ E2) as (counts' & -> & E). exists counts'.
    split; [done |]. by rewrite E, E1.
Qed.

Lemma starters_calculate_entropy_run guess possible_words :
  is_word guess → Forall is_word possible_words →
  Starters.calculate_entropy guess possible_words
  = Some (entropy_of guess possible_words).
Proof.
  intros Hg Hxs. unfold Starters.calculate_entropy.
  destruct (starters_count_loop guess possible_words [] Hg Hxs)
    as (counts & -> & E); [constructor |].
  cbn [mbind option_bind]. rewrite fmap_nil in E.
  assert (counts.*2 = (pattern_counts_of guess possible_words).*2) as ->.
  { unfold pattern_counts_of. rewrite <- E, <- list_fmap_compose. done. }
  unfold entropy_of. destruct possible_words as [|x xs]; [done |].
  rewrite entropy_loop.
  - by rewrite Rplus_0_l.
  - done.
  - apply pattern_counts_positive.
Qed.

(** X17. On five-letter words the two files compute the same entropy:
    [calculate_entropy] of [top_starters.py], whose counter is keyed by
    tuples, returns the value that [calculate_entropy] of [wordle.py]
    returns. *)
Theorem calculate_entropy_same_in_both_files guess possible_words w :
  is_word guess → Forall is_word possible_words → reachable w →
  ∃ e w', calculate_entropy guess possible_words w = Some (e, w')
          ∧ Starters.calculate_entropy guess possible_words = Some e.
Proof.
  intros Hg Hxs Hw.
  destruct (calculate_entropy_run guess possible_words w Hg Hxs
              (reachable_consistent w Hw)) as (w' & E & _).
  exists (entropy_of guess possible_words), w'. split; [done |].
  by apply starters_calculate_entropy_run.
Qed.

Lemma calculate_entropy_same_in_both_files_witness :
  ∃ e w', calculate_entropy "crane" ["crane"; "sloth"; "moody"]
            (World ∅ None None) = Some (e, w')
          ∧ Starters.calculate_entropy "crane" ["crane"; "sloth"; "moody"]
            = Some e.
Proof.
  apply (calculate_entropy_same_in_both_files "crane"
           ["crane"; "sloth"; "moody"]).
  - reflexivity.
  - repeat constructor.
  - apply reachable_start.
Defined.










(** ** Loading the word list *)




